(** * Receipt processor: a shallow embedding of [receiptprocessor.py]

    The development follows the source file function by function:
    the keyword categorizer, the two regular expressions of the field
    extractor, the output writer, the per-receipt pipeline and the
    warranty monitor.

    Texts are Python [str] values restricted to the code points below
    256 (Latin-1); a character is an [ascii], read as its code point.
    On that repertoire [str.lower], [\d], [\s] and [.] are the
    character maps and classes written out below. *)

From Stdlib Require Import Ascii String.
From Stdlib Require Import List Bool Arith Lia ZArith NArith.
Import ListNotations.

Set Implicit Arguments.

(** ** Strings *)

Definition str := list ascii.

Definition py (s : string) : str := list_ascii_of_string s.
Arguments py s%_string.

Definition nl : ascii := "010"%char.

Definition code (c : ascii) : N := N_of_ascii c.

Definition in_range (lo hi : N) (c : ascii) : bool :=
  (lo <=? code c)%N && (code c <=? hi)%N.

(** [str.lower] on one code point below 256: A-Z and the capital
    letters of the Latin-1 supplement move 32 places up. *)
Definition chr_lower (c : ascii) : ascii :=
  if in_range 65 90 c || in_range 192 214 c || in_range 216 222 c
  then ascii_of_N (code c + 32)
  else c.

Definition lower (s : str) : str := map chr_lower s.

Fixpoint startswith (p s : str) : bool :=
  match p, s with
  | [], _ => true
  | _ :: _, [] => false
  | a :: p', b :: s' => Ascii.eqb a b && startswith p' s'
  end.

(** [needle in hay] on strings. *)
Fixpoint str_in (needle hay : str) : bool :=
  startswith needle hay ||
  match hay with
  | [] => false
  | _ :: hay' => str_in needle hay'
  end.

(** ** Categorizer *)

Module Categorizer.

(** The [categories] dict; a dict iterates in insertion order, so it is
    an association list. *)
Definition categories : list (str * list str) :=
  [ (py "restaurant",  [py "restaurant"; py "cafe"; py "diner"]);
    (py "grocery",     [py "grocery"; py "supermarket"; py "food"; py "walmart"]);
    (py "electronics", [py "electronics"; py "technology"; py "gadget"]);
    (py "warrenty",    [py "warrenty"; py "WARRENTY"; py "valid until"; py "expiry"]) ].

Fixpoint categorize_loop (items : list (str * list str)) (text : str) : str :=
  match items with
  | [] => py "other"
  | (category, keywords) :: rest =>
      if existsb (fun keyword => str_in keyword (lower text)) keywords
      then category
      else categorize_loop rest text
  end.

Definition categorize_receipt (text : str) : str :=
  categorize_loop categories text.

(** The keyword table with the upper-case entry removed, for the
    comparison with [categorize_receipt]. *)
Definition categories_without_upper : list (str * list str) :=
  [ (py "restaurant",  [py "restaurant"; py "cafe"; py "diner"]);
    (py "grocery",     [py "grocery"; py "supermarket"; py "food"; py "walmart"]);
    (py "electronics", [py "electronics"; py "technology"; py "gadget"]);
    (py "warrenty",    [py "warrenty"; py "valid until"; py "expiry"]) ].

Definition categorize_receipt_without_upper (text : str) : str :=
  categorize_loop categories_without_upper text.

(** A keyword occurs in a text up to letter case. *)
Definition ci_substring (k t : str) : Prop :=
  exists a s b, t = a ++ s ++ b /\ lower s = lower k.

Definition category_matches (text : str) (entry : str * list str) : Prop :=
  exists k, In k (snd entry) /\ ci_substring k text.

End Categorizer.

(** ** Regular expressions

    Both patterns of the program are concatenations of quantified
    character classes, with capture groups spanning whole classes.  A
    pattern is the list of its quantified classes; each one records the
    group it belongs to (0 for none).  Matching is the backtracking
    search of [re]: a greedy class first takes as many characters as
    allowed and gives them back one by one, a lazy class starts from
    the fewest and takes one more at a time. *)

Module Re.

Record atom := Atom {
  cls : ascii -> bool;
  lo : nat;
  hi : option nat;
  greedy : bool;
  grp : nat
}.

Definition pattern := list atom.

(** [\d], [\s], [.] and literals on code points below 256. *)
Definition is_digit (c : ascii) : bool := in_range 48 57 c.

Definition is_space (c : ascii) : bool :=
  in_range 9 13 c || in_range 28 32 c
  || (code c =? 133)%N || (code c =? 160)%N.

Definition not_newline (c : ascii) : bool := negb (code c =? 10)%N.

Definition lit (c x : ascii) : bool := Ascii.eqb x c.

(** A literal under [re.IGNORECASE]. *)
Definition lit_ignorecase (c x : ascii) : bool :=
  Ascii.eqb (chr_lower x) (chr_lower c).

Fixpoint first_some {A B : Type} (f : A -> option B) (l : list A) : option B :=
  match l with
  | [] => None
  | x :: l' =>
      match f x with
      | Some y => Some y
      | None => first_some f l'
      end
  end.

(** Length of the longest prefix of [s] inside the class. *)
Fixpoint run_len (p : ascii -> bool) (s : str) : nat :=
  match s with
  | [] => 0
  | c :: s' => if p c then S (run_len p s') else 0
  end.

(** The repetition counts an atom tries at [s], in the order it tries
    them. *)
Definition counts (a : atom) (s : str) : list nat :=
  let n := run_len (cls a) s in
  let top := match hi a with Some h => Nat.min h n | None => n end in
  let up := seq (lo a) (S top - lo a) in
  if greedy a then rev up else up.

(** Match the pattern at the start of [s]; the result lists the text
    taken by each atom. *)
Fixpoint match_here (p : pattern) (s : str) : option (list str) :=
  match p with
  | [] => Some []
  | a :: p' =>
      first_some
        (fun k => option_map (cons (firstn k s)) (match_here p' (skipn k s)))
        (counts a s)
  end.

(** [re.search]: the leftmost start at which the pattern matches. *)
Fixpoint search (p : pattern) (s : str) : option (nat * list str) :=
  match match_here p s with
  | Some pcs => Some (0, pcs)
  | None =>
      match s with
      | [] => None
      | _ :: s' => option_map (fun m => (S (fst m), snd m)) (search p s')
      end
  end.

(** [m.group(g)] for a group [g] of the pattern. *)
Definition group (g : nat) (p : pattern) (pcs : list str) : str :=
  concat (map snd (filter (fun ap => grp (fst ap) =? g) (combine p pcs))).

(** Successive non-overlapping matches, each search resuming where the
    previous match ended.  The patterns scanned this way here never
    match the empty string. *)
Fixpoint finditer_fuel (fuel : nat) (p : pattern) (s : str) : list (list str) :=
  match fuel with
  | 0 => []
  | S fuel' =>
      match search p s with
      | None => []
      | Some (i, pcs) =>
          pcs :: finditer_fuel fuel' p (skipn (i + length (concat pcs)) s)
      end
  end.

Definition finditer (p : pattern) (s : str) : list (list str) :=
  finditer_fuel (S (length s)) p s.

Definition single (x : ascii) : str := [x].

(** A piece of text is a legal repetition of an atom. *)
Definition fits (a : atom) (piece : str) : Prop :=
  Forall (fun c => cls a c = true) piece
  /\ lo a <= length piece
  /\ match hi a with Some h => length piece <= h | None => True end.

End Re.

(** ** Field extractor *)

Module Extractor.
Import Re.

Definition once (c : ascii -> bool) (g : nat) : atom := Atom c 1 (Some 1) true g.

(** [r'warranty.*?(\d{2}/\d{2}/\d{4})'] under [re.IGNORECASE]. *)
Definition date_atoms : pattern :=
  [ Atom is_digit 2 (Some 2) true 1;
    once (lit_ignorecase "/") 1;
    Atom is_digit 2 (Some 2) true 1;
    once (lit_ignorecase "/") 1;
    Atom is_digit 4 (Some 4) true 1 ].

Definition token_atoms : pattern :=
  map (fun c => once (lit_ignorecase c) 0) (py "warranty").

Definition warranty_pattern : pattern :=
  token_atoms ++ Atom not_newline 0 None false 0 :: date_atoms.

(** [r'([A-Za-z\s]+)\s+(\d+\.\d{2})']. *)
Definition is_name_char (c : ascii) : bool :=
  in_range 65 90 c || in_range 97 122 c || is_space c.

Definition products_pattern : pattern :=
  [ Atom is_name_char 1 None true 1;
    Atom is_space 1 None true 0;
    Atom is_digit 1 None true 2;
    once (lit ".") 2;
    Atom is_digit 2 (Some 2) true 2 ].

Definition extract_warranty_and_products (text : str)
  : option str * list (str * str) :=
  let warranty_date := search warranty_pattern text in
  let products :=
    map (fun pcs => (group 1 products_pattern pcs, group 2 products_pattern pcs))
        (finditer products_pattern text) in
  (match warranty_date with
   | Some m => Some (group 1 warranty_pattern (snd m))
   | None => None
   end,
   products).

(** The shapes the two patterns look for. *)
Definition date_form (d : str) : Prop :=
  exists m1 m2 d1 d2 y1 y2 y3 y4,
    d = [m1; m2; "/"%char; d1; d2; "/"%char; y1; y2; y3; y4]
    /\ Forall (fun c => is_digit c = true) [m1; m2; d1; d2; y1; y2; y3; y4].

(** [pre] ends with the token, in any letter case, and text without a
    line break after it. *)
Definition warranty_before (pre : str) : Prop :=
  exists a w mid,
    pre = a ++ w ++ mid
    /\ lower w = py "warranty"
    /\ Forall (fun c => c <> nl) mid.

Definition price_form (p : str) : Prop :=
  exists ds d1 d2,
    p = ds ++ ["."%char; d1; d2]
    /\ ds <> []
    /\ Forall (fun c => is_digit c = true) ds
    /\ is_digit d1 = true /\ is_digit d2 = true.

Definition name_form (n : str) : Prop :=
  n <> [] /\ Forall (fun c => is_name_char c = true) n.

Definition blank_form (ws : str) : Prop :=
  ws <> [] /\ Forall (fun c => is_space c = true) ws.


(** The pairs are full matches of the products pattern found one after
    the other in the text. *)
Inductive items_in_order : str -> list (str * str) -> Prop :=
| items_done : forall text, items_in_order text []
| items_next : forall gap name ws price rest items,
    name_form name -> blank_form ws -> price_form price ->
    items_in_order rest items ->
    items_in_order (gap ++ name ++ ws ++ price ++ rest) ((name, price) :: items).

(** The products pattern has a match that starts at the head of [s]. *)
Definition matches_at (s : str) : Prop :=
  exists name ws price rest,
    s = name ++ ws ++ price ++ rest
    /\ name_form name /\ blank_form ws /\ price_form price.

(** The scan of the text by the products pattern: no match starts in
    the text skipped before an item or after the last one; an item is
    the name and the price of a match whose blank is one character;
    the scan goes on right after the price. *)
Inductive items_scan : str -> list (str * str) -> Prop :=
| scan_done : forall text,
    (forall j, ~ matches_at (skipn j text)) ->
    items_scan text []
| scan_next : forall gap name c price rest items,
    (forall j, j < length gap ->
               ~ matches_at (skipn j (gap ++ name ++ c :: price ++ rest))) ->
    name_form name -> is_space c = true -> price_form price ->
    items_scan rest items ->
    items_scan (gap ++ name ++ c :: price ++ rest) ((name, price) :: items).

Definition extractWarrantyDate (text : str) : option str :=
  fst (extract_warranty_and_products text).

Definition extractLineItems (text : str) : list (str * str) :=
  snd (extract_warranty_and_products text).

End Extractor.

(** ** Calendar dates, as [datetime.date] computes them *)

Module Calendar.
Local Open Scope Z_scope.

Record date := Date { year : Z; month : Z; day : Z }.

Definition is_leap (y : Z) : bool :=
  (y mod 4 =? 0) && (negb (y mod 100 =? 0) || (y mod 400 =? 0)).

Definition DAYS_IN_MONTH : list Z :=
  [31; 28; 31; 30; 31; 30; 31; 31; 30; 31; 30; 31].

Definition days_in_month (y m : Z) : Z :=
  if (m =? 2) && is_leap y then 29
  else nth (Z.to_nat (m - 1)) DAYS_IN_MONTH 0.

Definition days_before_year (y : Z) : Z :=
  let y' := y - 1 in y' * 365 + y' / 4 - y' / 100 + y' / 400.

Definition days_before_month (y m : Z) : Z :=
  fold_right Z.add 0 (firstn (Z.to_nat (m - 1)) DAYS_IN_MONTH)
  + (if (2 <? m) && is_leap y then 1 else 0).

Definition toordinal (d : date) : Z :=
  days_before_year (year d) + days_before_month (year d) (month d) + day d.

(** [(a - b).days] *)
Definition days_between (a b : date) : Z := toordinal a - toordinal b.

(** The range check of the [date] constructor. *)
Definition valid_date (y m d : Z) : bool :=
  (1 <=? y) && (y <=? 9999) && (1 <=? m) && (m <=? 12)
  && (1 <=? d) && (d <=? days_in_month y m).

End Calendar.

(** ** Exceptions, the log, the clock and the files *)

Module Py.
Import Calendar.

Inductive exn :=
| ValueError (msg : str)
| NameError (msg : str)
| OSError (msg : str).

Definition exn_str (e : exn) : str :=
  match e with ValueError m | NameError m | OSError m => m end.

Definition is_ValueError (e : exn) : bool :=
  match e with ValueError _ => true | _ => false end.

(** [IOError] is [OSError]. *)
Definition is_IOError (e : exn) : bool :=
  match e with OSError _ => true | _ => false end.

Definition is_Exception (e : exn) : bool := true.

Inductive result (A : Type) :=
| Ok (a : A)
| Raise (e : exn).
Arguments Raise {A} e.

Inductive level := DEBUG | INFO | WARNING | ERROR.

(** What [datetime.now()] reads: a date and the time of day. *)
Record datetime := Datetime { dt_date : date; dt_time : Z }.

(** The part of the machine the program touches.  The oracles say
    what the operating system and the encoding of the files refuse:
    [open_error] and [close_error] give the exception of opening and
    of closing a path, [write_error] the exception of writing a piece
    of text to a path, [mkdir_error] the message of the error of
    making a directory. *)
Record world := World {
  clock : datetime;
  log : list (level * str);
  files : list (str * str);
  dirs : list str;
  open_error : str -> option exn;
  mkdir_error : str -> option str;
  write_error : str -> str -> option exn;
  close_error : str -> option exn
}.

Definition M (A : Type) : Type := world -> result A * world.

Definition ret {A : Type} (a : A) : M A := fun w => (Ok a, w).

Definition bind {A B : Type} (c : M A) (k : A -> M B) : M B :=
  fun w =>
    match c w with
    | (Ok a, w') => k a w'
    | (Raise e, w') => (Raise e, w')
    end.

Definition raise {A : Type} (e : exn) : M A := fun w => (Raise e, w).

Definition lift {A : Type} (r : result A) : M A := fun w => (r, w).

(** [try: body except <catches> as e: handler e] *)
Definition try_except {A : Type} (body : M A) (catches : exn -> bool)
    (handler : exn -> M A) : M A :=
  fun w =>
    match body w with
    | (Ok a, w') => (Ok a, w')
    | (Raise e, w') => if catches e then handler e w' else (Raise e, w')
    end.

Definition set_log (l : list (level * str)) (w : world) : world :=
  World (clock w) l (files w) (dirs w)
        (open_error w) (mkdir_error w) (write_error w) (close_error w).

Definition set_files (f : list (str * str)) (w : world) : world :=
  World (clock w) (log w) f (dirs w)
        (open_error w) (mkdir_error w) (write_error w) (close_error w).

Definition set_dirs (d : list str) (w : world) : world :=
  World (clock w) (log w) (files w) d
        (open_error w) (mkdir_error w) (write_error w) (close_error w).

(** [logging.<level>(msg)]; the root logger is configured at DEBUG, so
    every record is emitted. *)
Definition logging (l : level) (msg : str) : M unit :=
  fun w => (Ok tt, set_log (log w ++ [(l, msg)]) w).

Definition datetime_now : M datetime := fun w => (Ok (clock w), w).

(** A machine with an empty log and no files, whose clock shows the
    given date and time of day. *)
Definition world_at (d : date) (t : Z) : world :=
  World (Datetime d t) [] [] []
        (fun _ => None) (fun _ => None) (fun _ _ => None) (fun _ => None).

Definition str_eqb (a b : str) : bool :=
  startswith a b && (length a =? length b).

Fixpoint fs_read (path : str) (fs : list (str * str)) : option str :=
  match fs with
  | [] => None
  | (p, c) :: fs' => if str_eqb p path then Some c else fs_read path fs'
  end.

Definition has_nul (path : str) : bool := existsb (Ascii.eqb zero) path.

(** [open(path, "w")]: a path with a NUL character is refused with a
    [ValueError] before the operating system is asked; otherwise the
    file is created or truncated, unless the system refuses. *)
Definition open_w (path : str) : M unit :=
  fun w =>
    if has_nul path
    then (Raise (ValueError (py "embedded null byte")), w)
    else match open_error w path with
         | Some e => (Raise e, w)
         | None => (Ok tt, set_files ((path, []) :: files w) w)
         end.

(** [file.write(data)] on the file opened at [path]; a refused write
    leaves the file as it was. *)
Definition file_write (path data : str) : M unit :=
  fun w =>
    match write_error w path data with
    | Some e => (Raise e, w)
    | None =>
        let old := match fs_read path (files w) with Some c => c | None => [] end in
        (Ok tt, set_files ((path, old ++ data) :: files w) w)
    end.

(** [file.close()] *)
Definition file_close (path : str) : M unit :=
  fun w =>
    match close_error w path with
    | Some e => (Raise e, w)
    | None => (Ok tt, w)
    end.

(** [with open(path, "w") as file: body]: the file is closed when the
    body ends, normally or with an exception; an exception of the
    close replaces that of the body. *)
Definition with_open_w (path : str) (body : M unit) : M unit :=
  fun w =>
    match open_w path w with
    | (Raise e, w1) => (Raise e, w1)
    | (Ok _, w1) =>
        match body w1 with
        | (Ok _, w2) => file_close path w2
        | (Raise e, w2) =>
            match file_close path w2 with
            | (Ok _, w3) => (Raise e, w3)
            | (Raise e', w3) => (Raise e', w3)
            end
        end
    end.

(** [os.makedirs(path, exist_ok=True)] *)
Definition makedirs (path : str) : M unit :=
  fun w =>
    match mkdir_error w path with
    | Some msg => (Raise (OSError msg), w)
    | None => (Ok tt, set_dirs (path :: dirs w) w)
    end.

(** [os.path.join(a, b)] of [posixpath]. *)
Definition path_join (a b : str) : str :=
  if startswith (py "/") b then b
  else match rev a with
       | [] => b
       | c :: _ => if Ascii.eqb c "/" then a ++ b else a ++ py "/" ++ b
       end.

End Py.

Declare Scope py_scope.
Delimit Scope py_scope with py.
Notation "x <- c ;; k" := (Py.bind c (fun x => k))
  (at level 61, c at next level, right associativity) : py_scope.
Notation "c ;; k" := (Py.bind c (fun _ => k))
  (at level 61, right associativity) : py_scope.

(** ** [datetime.strptime(s, "%m/%d/%Y")]

    [_strptime] turns the format into the regular expression
    [(?P<m>1[0-2]|0[1-9]|[1-9])/(?P<d>3[0-1]|[1-2]\d|0[1-9]|[1-9]| [1-9])/(?P<Y>\d\d\d\d)],
    matches it at the start of the string, refuses unconverted data
    after the match, converts the three fields with [int] and builds
    the date, whose constructor checks the ranges.  Every failure is a
    [ValueError]; the program never reads its message, which is
    shortened here. *)

Module Strptime.
Import Re Calendar Py.

(** A directive is an ordered alternation; each alternative is a
    sequence of one-character classes. *)
Definition directive := list (list (ascii -> bool)).

Definition directive_m : directive :=
  [ [lit "1"; in_range 48 50];
    [lit "0"; in_range 49 57];
    [in_range 49 57] ].

Definition directive_d : directive :=
  [ [lit "3"; in_range 48 49];
    [in_range 49 50; is_digit];
    [lit "0"; in_range 49 57];
    [in_range 49 57];
    [lit " "; in_range 49 57] ].

Definition directive_Y : directive :=
  [ [is_digit; is_digit; is_digit; is_digit] ].

Definition slash : directive := [ [lit "/"] ].

Definition format_mdY : list directive :=
  [directive_m; slash; directive_d; slash; directive_Y].

Fixpoint match_classes (cs : list (ascii -> bool)) (s : str) : option (str * str) :=
  match cs with
  | [] => Some ([], s)
  | c :: cs' =>
      match s with
      | [] => None
      | x :: s' =>
          if c x
          then option_map (fun tr => (x :: fst tr, snd tr)) (match_classes cs' s')
          else None
      end
  end.

(** Backtracking match of the format at the start of [s]: the fields
    and the unconverted rest. *)
Fixpoint match_format (fmt : list directive) (s : str) : option (list str * str) :=
  match fmt with
  | [] => Some ([], s)
  | alts :: fmt' =>
      first_some
        (fun alt =>
           match match_classes alt s with
           | Some (tok, rest) =>
               option_map (fun tr => (tok :: fst tr, snd tr)) (match_format fmt' rest)
           | None => None
           end)
        alts
  end.

(** [int(tok)] on a field of the format: decimal digits, after an
    optional blank that [int] strips. *)
Definition int (tok : str) : Z :=
  fold_left
    (fun acc c => if is_digit c then (10 * acc + Z.of_N (code c - 48))%Z else acc)
    tok 0%Z.

Definition strptime_mdY (date_string : str) : result date :=
  match match_format format_mdY date_string with
  | Some ([m; _; d; _; y], []) =>
      if valid_date (int y) (int m) (int d)
      then Ok (Date (int y) (int m) (int d))
      else Raise (ValueError (py "day is out of range for month"))
  | Some (_, _) =>
      Raise (ValueError (py "unconverted data remains"))
  | None =>
      Raise (ValueError (py "time data does not match format"))
  end.

End Strptime.

(** ** Output writer *)

Module Output.
Import Py.
Local Open Scope py_scope.

Fixpoint write_products (path : str) (products : list (str * str)) : M unit :=
  match products with
  | [] => ret tt
  | (name, price) :: rest =>
      file_write path (name ++ py ": " ++ price ++ [nl]) ;;
      write_products path rest
  end.

(** A [str] is true when it is not empty. *)
Definition truthy (o : option str) : bool :=
  match o with
  | Some (_ :: _) => true
  | _ => false
  end.

Definition generate_output (path category : str) (warranty_date : option str)
    (products : list (str * str)) (text : str) : M unit :=
  try_except
    (with_open_w path
       (file_write path (py "Category: " ++ category ++ [nl; nl]) ;;
        file_write path (py "Extracted Text:" ++ [nl] ++ text ++ [nl; nl]) ;;
        (if truthy warranty_date
         then file_write path
                (py "Warranty Date: "
                 ++ match warranty_date with Some d => d | None => [] end ++ [nl])
         else ret tt) ;;
        file_write path (py "Products:" ++ [nl]) ;;
        write_products path products) ;;
     logging DEBUG (py "Generated " ++ path))
    is_IOError
    (fun e => logging ERROR (py "Error writing to text file: " ++ exn_str e)).

(** The text the writer leaves in the file when nothing fails. *)
Definition layout (category : str) (warranty_date : option str)
    (products : list (str * str)) (text : str) : str :=
  py "Category: " ++ category ++ [nl] ++ [nl]
  ++ py "Extracted Text:" ++ [nl] ++ text ++ [nl] ++ [nl]
  ++ match warranty_date with
     | Some (c :: d) => py "Warranty Date: " ++ (c :: d) ++ [nl]
     | _ => []
     end
  ++ py "Products:" ++ [nl]
  ++ flat_map (fun np => fst np ++ py ": " ++ snd np ++ [nl]) products.

End Output.

(** ** Receipt pipeline *)

Module Pipeline.
Import Py Categorizer Extractor Output.
Local Open Scope py_scope.

(** The names the module binds: its imports and its functions.  A name
    that is neither here nor a builtin raises [NameError] when it is
    read. *)
Definition module_globals : list str :=
  [ py "argparse"; py "Exception"; py "ValueError"; py "any"; py "open";
    py "print"; py "os"; py "re"; py "Path"; py "image_to_string";
    py "logging"; py "datetime"; py "timedelta"; py "parse_args";
    py "binarize_image"; py "extract_warranty_and_products";
    py "categorize_receipt"; py "generate_output"; py "process_receipt";
    py "check_expiring_warranties"; py "main" ].

Definition global (name : str) : M unit :=
  if existsb (str_eqb name) module_globals
  then ret tt
  else raise (NameError (py "name '" ++ name ++ py "' is not defined")).

Definition str_of_option (o : option str) : str :=
  match o with Some s => s | None => py "None" end.

Section Collaborators.

(** The imaging library, the OCR engine and the formatting of the
    library: [pil_open path] is [Image.open(path).convert('L')],
    [point_threshold] is the point map of [binarize_image], [stem] is
    [Path(path).stem] and [repr_products] is the text of a list of
    pairs in an f-string. *)
Variable image : Type.
Variable pil_open : str -> result image.
Variable point_threshold : image -> image.
Variable image_to_string : image -> result str.
Variable stem : str -> str.
Variable repr_products : list (str * str) -> str.

Definition binarize_image (im : image) : image := point_threshold im.

Definition process_receipt (image_path output_dir : str)
  : M (option str * option str * option str) :=
  try_except
    (logging DEBUG (py "Processing receipt: " ++ image_path) ;;
     global (py "Image") ;;
     im <- lift (pil_open image_path) ;;
     let im := binarize_image im in
     text <- lift (image_to_string im) ;;
     logging DEBUG (py "Extracted text: " ++ text) ;;
     let category := categorize_receipt text in
     let '(warranty_date, products) := extract_warranty_and_products text in
     logging DEBUG (py "Categorized as: " ++ category
                    ++ py ", Warranty Date: " ++ str_of_option warranty_date
                    ++ py ", Products: " ++ repr_products products) ;;
     let category_dir := path_join output_dir category in
     makedirs category_dir ;;
     let output_path := path_join category_dir (stem image_path ++ py ".txt") in
     generate_output output_path category warranty_date products text ;;
     ret (Some category, warranty_date, Some output_path))
    is_Exception
    (fun e =>
       logging ERROR (py "Error processing image " ++ image_path
                      ++ py ": " ++ exn_str e) ;;
       ret (None, None, None)).

End Collaborators.

End Pipeline.

(** ** Warranty monitor *)

Module Monitor.
Import Calendar Py Strptime.
Local Open Scope py_scope.

Definition default_days_threshold : Z := 7.

(** The body of the [for] loop, for one record. *)
Definition check_one (today : date) (days_threshold : Z)
    (expiring_soon : list (str * date * str)) (w : str * str * str)
  : M (list (str * date * str)) :=
  let '(item, date_str, path) := w in
  try_except
    (date <- lift (strptime_mdY date_str) ;;
     if (days_between date today <=? days_threshold)%Z
     then ret (expiring_soon ++ [(item, date, path)])
     else ret expiring_soon)
    is_ValueError
    (fun _ =>
       logging WARNING (py "Invalid date format for " ++ item ++ py ": " ++ date_str) ;;
       ret expiring_soon).

Fixpoint check_loop (today : date) (days_threshold : Z)
    (warranties : list (str * str * str))
    (expiring_soon : list (str * date * str))
  : M (list (str * date * str)) :=
  match warranties with
  | [] => ret expiring_soon
  | w :: rest =>
      expiring_soon' <- check_one today days_threshold expiring_soon w ;;
      check_loop today days_threshold rest expiring_soon'
  end.

Definition check_expiring_warranties (warranties : list (str * str * str))
    (days_threshold : Z) : M (list (str * date * str)) :=
  now <- datetime_now ;;
  let today := dt_date now in
  check_loop today days_threshold warranties [].

(** The rule of the monitor, record by record: a record is kept when
    its date string parses and the date is at most [days_threshold]
    days after [today]; it then carries the parsed date. *)
Definition expiring_of (today : date) (days_threshold : Z) (w : str * str * str)
  : list (str * date * str) :=
  let '(item, date_str, path) := w in
  match strptime_mdY date_str with
  | Ok d =>
      if (days_between d today <=? days_threshold)%Z then [(item, d, path)] else []
  | Raise _ => []
  end.

Definition findExpiringSoon_spec (today : date) (days_threshold : Z)
    (warranties : list (str * str * str)) : list (str * date * str) :=
  flat_map (expiring_of today days_threshold) warranties.

Definition invalid_date_warning (item date_str : str) : level * str :=
  (WARNING, py "Invalid date format for " ++ item ++ py ": " ++ date_str).

(** The warning a record leaves in the log. *)
Definition warnings_of (w : str * str * str) : list (level * str) :=
  let '(item, date_str, path) := w in
  match strptime_mdY date_str with
  | Ok _ => []
  | Raise _ => [invalid_date_warning item date_str]
  end.

End Monitor.

(** ** Views of the records of the monitor *)

Module Records.
Import Calendar Py Strptime.

(** The date of a record the monitor returns. *)
Definition date_of (r : str * date * str) : date := snd (fst r).

(** The date string of an input record does not parse. *)
Definition unparsable (r : str * str * str) : bool :=
  match strptime_mdY (snd (fst r)) with Ok _ => false | Raise _ => true end.

End Records.

(** ** Files an action leaves alone *)

Module Frames.
Import Py.

(** The action changes the content of no file other than [path]. *)
Definition keeps_other_files {A : Type} (path : str) (c : M A) : Prop :=
  forall w path',
    path' <> path -> fs_read path' (files (snd (c w))) = fs_read path' (files w).

(** A machine on which the operating system refuses every [open]
    with the given message. *)
Definition read_only_world (msg : str) : world :=
  World (Datetime (Calendar.Date 2024 1 10) 0) [] [] []
        (fun _ => Some (OSError msg)) (fun _ => None)
        (fun _ _ => None) (fun _ => None).

(** A machine on which every file opens and takes every write, and the
    close fails with the given message, as when the disk is full. *)
Definition full_disk_world (msg : str) : world :=
  World (Datetime (Calendar.Date 2024 1 10) 0) [] [] []
        (fun _ => None) (fun _ => None)
        (fun _ _ => None) (fun _ => Some (OSError msg)).

(** The machine takes every write to [path]. *)
Definition writes_allowed (path : str) (w : world) : Prop :=
  forall data, write_error w path data = None.

End Frames.

(** ** Rank of a label in the keyword table *)

Module CategoryOrder.
Import Py Categorizer.

Fixpoint index_of (c : str) (keys : list str) : nat :=
  match keys with
  | [] => 0
  | k :: keys' => if str_eqb k c then 0 else S (index_of c keys')
  end.

(** The place of a label among the keys of [categories]; the default
    label, which is no key, comes last. *)
Definition category_rank (c : str) : nat := index_of c (map fst categories).

End CategoryOrder.

(** ** Image binarization

    [binarize_image] is applied to the result of [convert('L')], a
    single-band image of 8-bit pixels.  On such an image [im.point(f)]
    evaluates [f] on 0..255 into a lookup table and replaces every
    pixel by its entry. *)

Module Imaging.

Record gray_image := GrayImage {
  width : nat;
  height : nat;
  pixels : list N
}.

(** [lambda x: 255 if x > 170 else 0] *)
Definition threshold (x : N) : N := if (170 <? x)%N then 255%N else 0%N.

Definition lookup_table (f : N -> N) : list N :=
  map (fun i => f (N.of_nat i)) (seq 0 256).

Definition point (f : N -> N) (im : gray_image) : gray_image :=
  GrayImage (width im) (height im)
    (map (fun x => nth (N.to_nat x) (lookup_table f) 0%N) (pixels im)).

(** [binarize_image] on single-band images. *)
Definition binarize_gray (im : gray_image) : gray_image :=
  Pipeline.binarize_image (point threshold) im.

End Imaging.

(** ** Run coordinator

    [main], after [parse_args] has produced the two directories. *)

Module Coordinator.
Import Calendar Py Output Pipeline Monitor.
Local Open Scope py_scope.

(** [s.endswith(suffix)] *)
Definition endswith (suffix s : str) : bool := startswith (rev suffix) (rev s).

Definition image_suffixes : list str := [py ".jpg"; py ".jpeg"; py ".png"].

(** [filename.endswith(('.jpg', '.jpeg', '.png'))] *)
Definition is_receipt_image (filename : str) : bool :=
  existsb (fun suffix => endswith suffix filename) image_suffixes.

Definition digit_char (n : Z) : ascii := ascii_of_N (48 + Z.to_N (n mod 10)).

(** [str(date)]: year, month and day in 4, 2 and 2 digits. *)
Definition isoformat (d : date) : str :=
  [digit_char (year d / 1000); digit_char (year d / 100);
   digit_char (year d / 10); digit_char (year d); "-"%char;
   digit_char (month d / 10); digit_char (month d); "-"%char;
   digit_char (day d / 10); digit_char (day d)].

Definition alert_message (item : str) (d : date) (path : str) : str :=
  py "ALERT: Warranty for " ++ item ++ py " is expiring on "
  ++ isoformat d ++ py ". Receipt stored at " ++ path.

Fixpoint alert_loop (expiring_soon : list (str * date * str)) : M unit :=
  match expiring_soon with
  | [] => ret tt
  | (item, d, path) :: rest =>
      logging WARNING (alert_message item d path) ;;
      alert_loop rest
  end.

Section Run.

Variable image : Type.
Variable pil_open : str -> result image.
Variable point_threshold : image -> image.
Variable image_to_string : image -> result str.
Variable stem : str -> str.
Variable repr_products : list (str * str) -> str.

(** [os.listdir(path)]: the names in the directory, or the error of
    the operating system. *)
Variable listdir : str -> result (list str).

(** The body of the loop over the directory, for one name.
    [process_receipt] returns a path whenever it returns a category. *)
Definition process_file (args_input args_output : str)
    (warranties : list (str * str * str)) (filename : str)
  : M (list (str * str * str)) :=
  if is_receipt_image filename then
    let image_path := path_join args_input filename in
    r <- process_receipt pil_open point_threshold image_to_string stem
           repr_products image_path args_output ;;
    let '(category, warranty_date, new_path) := r in
    if truthy category then
      logging INFO (py "Processed " ++ filename
                    ++ py ": Category - " ++ str_of_option category
                    ++ py ", Warranty Date - " ++ str_of_option warranty_date) ;;
      if truthy warranty_date
      then ret (warranties
                ++ [(filename, str_of_option warranty_date, str_of_option new_path)])
      else ret warranties
    else ret warranties
  else ret warranties.

Fixpoint main_loop (args_input args_output : str) (filenames : list str)
    (warranties : list (str * str * str)) : M (list (str * str * str)) :=
  match filenames with
  | [] => ret warranties
  | filename :: rest =>
      warranties' <- process_file args_input args_output warranties filename ;;
      main_loop args_input args_output rest warranties'
  end.

Definition main (args_input args_output : str) : M unit :=
  logging DEBUG (py "Input directory: " ++ args_input
                 ++ py ", Output directory: " ++ args_output) ;;
  makedirs args_output ;;
  filenames <- lift (listdir args_input) ;;
  warranties <- main_loop args_input args_output filenames [] ;;
  expiring_soon <- check_expiring_warranties warranties default_days_threshold ;;
  alert_loop expiring_soon.

End Run.

(** The two log entries of a receipt whose processing stops at the
    unbound name. *)
Definition name_error_entries (image_path : str) : list (level * str) :=
  [(DEBUG, py "Processing receipt: " ++ image_path);
   (ERROR, py "Error processing image " ++ image_path
           ++ py ": name 'Image' is not defined")].

End Coordinator.

(** * Properties *)

Ltac app_normal :=
  repeat (progress (cbn [app concat]; rewrite <- ?app_assoc)); reflexivity.

Ltac destruct_by_length :=
  repeat match goal with
         | H : length ?l = 0 |- _ =>
             is_var l; destruct l; [clear H | discriminate H]
         | H : length ?l = S _ |- _ =>
             is_var l; destruct l; [discriminate H | simpl in H; injection H as H]
         end.

(** ** Facts on strings *)

Lemma startswith_spec (p s : str) :
  startswith p s = true <-> exists r, s = p ++ r.
Proof.
  revert s; induction p as [|a p IH]; intros s; simpl.
  - split; [intros _; now exists s | reflexivity].
  - destruct s as [|b s].
    + split; [discriminate | intros [r Hr]; discriminate].
    + rewrite andb_true_iff, Ascii.eqb_eq, IH. split.
      * intros [-> [r ->]]. now exists r.
      * intros [r Hr]. injection Hr as -> ->. split; [reflexivity | now exists r].
Qed.

Lemma str_in_spec (k t : str) :
  str_in k t = true <-> exists a b, t = a ++ k ++ b.
Proof.
  induction t as [|c t IH]; simpl.
  - rewrite orb_false_r, startswith_spec. split.
    + intros [r Hr]. now exists [], r.
    + intros [a [b H]]. destruct a; [now exists b | discriminate].
  - rewrite orb_true_iff, startswith_spec, IH. split.
    + intros [[r Hr] | [a [b H]]].
      * now exists [], r.
      * exists (c :: a), b. now rewrite H.
    + intros [a [b H]]. destruct a as [|c' a].
      * left. now exists b.
      * right. injection H as _ H. now exists a, b.
Qed.

Lemma chr_lower_idem (c : ascii) : chr_lower (chr_lower c) = chr_lower c.
Proof. destruct c as [[] [] [] [] [] [] [] []]; reflexivity. Qed.

Lemma lower_idem (s : str) : lower (lower s) = lower s.
Proof.
  unfold lower. rewrite map_map. apply map_ext. intros; apply chr_lower_idem.
Qed.

Lemma chr_lower_not_upper (c : ascii) : in_range 65 90 (chr_lower c) = false.
Proof. destruct c as [[] [] [] [] [] [] [] []]; reflexivity. Qed.

Lemma lower_app (a b : str) : lower (a ++ b) = lower a ++ lower b.
Proof. apply map_app. Qed.

(** A substring of the lowered text is the lowering of a substring. *)
Lemma lower_eq_app3 (t a k b : str) :
  lower t = a ++ k ++ b ->
  exists a' s b', t = a' ++ s ++ b' /\ lower s = k.
Proof.
  unfold lower. intros H.
  apply map_eq_app in H as (a' & r & -> & Ha & Hr).
  apply map_eq_app in Hr as (s & b' & -> & Hs & Hb).
  now exists a', s, b'.
Qed.

(** ** Categorizer *)

Section CategorizerFacts.
Import Categorizer.

Lemma existsb_str_in (keywords : list str) (t : str) :
  existsb (fun keyword => str_in keyword t) keywords = true <->
  exists k, In k keywords /\ exists a b, t = a ++ k ++ b.
Proof.
  rewrite existsb_exists. split; intros [k [Hk H]]; exists k; split; auto;
    now apply str_in_spec.
Qed.

(** The loop returns the label of the first entry one of whose keywords
    occurs in the lowered text. *)
Lemma categorize_loop_first (items : list (str * list str)) (text : str) :
  (exists pre entry post,
      items = pre ++ entry :: post
      /\ existsb (fun k => str_in k (lower text)) (snd entry) = true
      /\ Forall (fun e => existsb (fun k => str_in k (lower text)) (snd e) = false) pre
      /\ categorize_loop items text = fst entry)
  \/ (Forall (fun e => existsb (fun k => str_in k (lower text)) (snd e) = false) items
      /\ categorize_loop items text = py "other").
Proof.
  induction items as [|[c ks] items IH]; simpl.
  - right. split; [constructor | reflexivity].
  - destruct (existsb _ ks) eqn:E.
    + left. exists [], (c, ks), items. repeat split; auto.
    + destruct IH as [(pre & e & post & -> & He & Hpre & Hr) | [Hall Hr]].
      * left. exists ((c, ks) :: pre), e, post. repeat split; auto.
      * right. split; auto.
Qed.

(** Every keyword list of the table is closed under lowering: the only
    keyword that is not lower-case, WARRENTY, has its lower-case form
    in the same list. *)
Lemma categories_lower_closed :
  Forall (fun e => Forall (fun k => In (lower k) (snd e)) (snd e)) categories.
Proof.
  unfold categories. repeat (apply Forall_cons || apply Forall_nil); vm_compute; tauto.
Qed.

Lemma entry_matches_iff (text : str) (e : str * list str) :
  Forall (fun k => In (lower k) (snd e)) (snd e) ->
  existsb (fun k => str_in k (lower text)) (snd e) = true <->
  category_matches text e.
Proof.
  intros Hcl. rewrite existsb_str_in. unfold category_matches, ci_substring. split.
  - intros (k & Hk & a & b & H).
    apply lower_eq_app3 in H as (a' & s & b' & -> & Hs).
    exists k. split; auto. exists a', s, b'. split; auto.
    now rewrite <- Hs, lower_idem.
  - intros (k & Hk & a & s & b & -> & Hs).
    exists (lower k). split.
    + rewrite Forall_forall in Hcl. now apply Hcl.
    + exists (lower a), (lower b). now rewrite !lower_app, Hs.
Qed.

End CategorizerFacts.

Section CategorizerTheorems.
Import Categorizer.

(** The labels [categorize_receipt] can return: the four keys of the
    table, the fourth spelt as the source spells it, and the default. *)
Lemma categorize_receipt_labels (text : str) :
  In (categorize_receipt text)
     [py "restaurant"; py "grocery"; py "electronics"; py "warrenty"; py "other"].
Proof.
  unfold categorize_receipt, categories. cbn [categorize_loop].
  repeat match goal with
         | |- context [if ?b then _ else _] => destruct b
         end; simpl; tauto.
Qed.

(** C1: on a receipt that mentions an expiry, [categorize_receipt]
    returns the label [warrenty], which is outside the set
    restaurant, grocery, electronics, warranty, other. *)
Theorem categorize_receipt_label_outside_set :
  categorize_receipt (py "Expiry 05/01/2025") = py "warrenty"
  /\ ~ In (categorize_receipt (py "Expiry 05/01/2025"))
          [py "restaurant"; py "grocery"; py "electronics"; py "warranty"; py "other"].
Proof.
  split; [reflexivity|].
  vm_compute. intros H.
  repeat (destruct H as [H | H]; [discriminate H|]). exact H.
Qed.

(** First match in table order: the result is the key of the first
    entry of [categories] one of whose keywords occurs in the text up
    to letter case, and [other] when no entry has such a keyword. *)
Lemma categorize_receipt_first_match (text : str) :
  (exists pre entry post,
      categories = pre ++ entry :: post
      /\ category_matches text entry
      /\ (forall e, In e pre -> ~ category_matches text e)
      /\ categorize_receipt text = fst entry)
  \/ ((forall e, In e categories -> ~ category_matches text e)
      /\ categorize_receipt text = py "other").
Proof.
  pose proof categories_lower_closed as Hcl. rewrite Forall_forall in Hcl.
  unfold categorize_receipt.
  destruct (categorize_loop_first categories text)
    as [(pre & e & post & Heq & He & Hpre & Hr) | [Hall Hr]].
  - left. exists pre, e, post. repeat split; auto.
    + apply entry_matches_iff; auto. apply Hcl. rewrite Heq.
      apply in_or_app. right. now left.
    + intros e' Hin Hm. rewrite Forall_forall in Hpre.
      apply entry_matches_iff in Hm.
      * rewrite (Hpre e' Hin) in Hm. discriminate.
      * apply Hcl. rewrite Heq. apply in_or_app. now left.
  - right. split; auto. intros e' Hin Hm. rewrite Forall_forall in Hall.
    apply entry_matches_iff in Hm; auto.
    rewrite (Hall e' Hin) in Hm. discriminate.
Qed.

(** The order of the keys of the table. *)
Lemma categories_order :
  map fst categories
  = [py "restaurant"; py "grocery"; py "electronics"; py "warrenty"].
Proof. reflexivity. Qed.

(** C2: a receipt whose only keywords are those of the fourth entry of
    the table, and one with a keyword of the second entry as well.
    The earlier entry wins, and the fourth entry answers [warrenty],
    not [warranty]. *)
Theorem categorize_receipt_fourth_entry_label :
  categorize_receipt (py "Valid until 05/01/2025") = py "warrenty"
  /\ categorize_receipt (py "Valid until 05/01/2025") <> py "warranty"
  /\ categorize_receipt (py "WALMART receipt, valid until 05/01/2025") = py "grocery"
  /\ categorize_receipt (py "Thank you") = py "other".
Proof.
  repeat split; try reflexivity. vm_compute. discriminate.
Qed.

(** No lowered text contains an upper-case ASCII letter. *)
Lemma lower_no_upper (t : str) (c : ascii) :
  In c (lower t) -> in_range 65 90 c = false.
Proof.
  unfold lower. rewrite in_map_iff. intros [x [<- _]]. apply chr_lower_not_upper.
Qed.

Lemma WARRENTY_never_in_lower (text : str) :
  str_in (py "WARRENTY") (lower text) = false.
Proof.
  destruct (str_in (py "WARRENTY") (lower text)) eqn:E; [|reflexivity].
  apply str_in_spec in E as (a & b & E).
  assert (H : In "W"%char (lower text)).
  { rewrite E. apply in_or_app. right. now left. }
  apply lower_no_upper in H. discriminate H.
Qed.

(** C10: the keyword [WARRENTY] is found in no lowered text, and the
    categorizer without it returns the same label on every text. *)
Theorem WARRENTY_keyword_is_dead :
  (forall text, str_in (py "WARRENTY") (lower text) = false)
  /\ (forall text, categorize_receipt text = categorize_receipt_without_upper text).
Proof.
  split; [exact WARRENTY_never_in_lower|].
  intros text.
  unfold categorize_receipt, categorize_receipt_without_upper,
    categories, categories_without_upper.
  cbn [categorize_loop existsb].
  rewrite WARRENTY_never_in_lower, orb_false_l. reflexivity.
Qed.

End CategorizerTheorems.

(** ** The matcher *)

Section ReFacts.
Import Re.

Lemma first_some_Some {A B : Type} (f : A -> option B) (l : list A) (y : B) :
  first_some f l = Some y ->
  exists l1 k l2, l = l1 ++ k :: l2 /\ f k = Some y
                  /\ Forall (fun j => f j = None) l1.
Proof.
  induction l as [|x l IH]; simpl; [discriminate|].
  destruct (f x) eqn:E.
  - intros [= <-]. exists [], x, l. repeat split; auto.
  - intros H. destruct (IH H) as (l1 & k & l2 & -> & Hk & Hl1).
    exists (x :: l1), k, l2. repeat split; auto.
Qed.

Lemma first_some_None {A B : Type} (f : A -> option B) (l : list A) :
  first_some f l = None <-> Forall (fun j => f j = None) l.
Proof.
  induction l as [|x l IH]; simpl.
  - split; auto.
  - destruct (f x) eqn:E.
    + split; [discriminate | intros H; inversion H; congruence].
    + rewrite IH. split; [now constructor | intros H; now inversion H].
Qed.

Lemma seq_split_at (a n : nat) (l1 l2 : list nat) (x : nat) :
  seq a n = l1 ++ x :: l2 -> x = a + length l1 /\ l1 = seq a (length l1).
Proof.
  revert a n; induction l1 as [|y l1 IH]; intros a n H.
  - destruct n; simpl in *; [discriminate|]. injection H as <- _. split; auto.
  - destruct n; simpl in *; [discriminate|]. injection H as <- H.
    apply IH in H as [-> H]. split; [lia | now rewrite <- H].
Qed.

Lemma run_len_le_length (p : ascii -> bool) (s : str) : run_len p s <= length s.
Proof. induction s as [|c s IH]; simpl; [|destruct (p c); simpl]; lia. Qed.

Lemma run_len_firstn (p : ascii -> bool) (s : str) (k : nat) :
  k <= run_len p s -> Forall (fun c => p c = true) (firstn k s).
Proof.
  revert k; induction s as [|c s IH]; intros k Hk; simpl in *.
  - now rewrite firstn_nil.
  - destruct k; simpl; [constructor|].
    destruct (p c) eqn:E; [|lia]. constructor; auto. apply IH. lia.
Qed.

Lemma run_len_app_ge (p : ascii -> bool) (piece rest : str) :
  Forall (fun c => p c = true) piece -> length piece <= run_len p (piece ++ rest).
Proof.
  induction 1 as [|c piece Hc _ IH]; simpl; [lia|]. rewrite Hc. lia.
Qed.

Lemma in_counts (a : atom) (s : str) (k : nat) :
  In k (counts a s) <->
  lo a <= k /\ k <= run_len (cls a) s
  /\ match hi a with Some h => k <= h | None => True end.
Proof.
  unfold counts.
  assert (E : forall l : list nat, In k (if greedy a then rev l else l) <-> In k l).
  { intros l. destruct (greedy a); [symmetry; apply in_rev | reflexivity]. }
  rewrite E, in_seq. destruct (hi a); lia.
Qed.

Lemma fits_firstn (a : atom) (s : str) (k : nat) :
  In k (counts a s) -> fits a (firstn k s) /\ length (firstn k s) = k.
Proof.
  rewrite in_counts. intros (Hlo & Hrun & Hhi).
  pose proof (run_len_le_length (cls a) s).
  assert (L : length (firstn k s) = k) by (rewrite length_firstn; lia).
  split; auto. unfold fits. rewrite L. repeat split; auto.
  now apply run_len_firstn.
Qed.

(** Soundness: what the matcher returns is a split of a prefix of the
    text into legal repetitions of the atoms. *)
Lemma match_here_sound (p : pattern) (s : str) (pcs : list str) :
  match_here p s = Some pcs ->
  Forall2 fits p pcs /\ exists rest, s = concat pcs ++ rest.
Proof.
  revert s pcs; induction p as [|a p IH]; intros s pcs; simpl.
  - intros [= <-]. split; [constructor | now exists s].
  - intros H. apply first_some_Some in H as (l1 & k & l2 & Hl & Hk & _).
    destruct (match_here p (skipn k s)) as [pcs'|] eqn:E; [|discriminate].
    simpl in Hk. injection Hk as <-.
    destruct (IH _ _ E) as [HF [rest Hrest]].
    assert (Hin : In k (counts a s)) by (rewrite Hl; apply in_or_app; right; now left).
    apply fits_firstn in Hin as [Hfit _].
    split; [now constructor|].
    exists rest. simpl. rewrite <- app_assoc, <- Hrest. symmetry. apply firstn_skipn.
Qed.

(** Completeness: when a prefix of the text splits into legal
    repetitions of the atoms, the matcher finds a match. *)
Lemma match_here_complete (p : pattern) (pcs : list str) (rest : str) :
  Forall2 fits p pcs -> match_here p (concat pcs ++ rest) <> None.
Proof.
  induction 1 as [|a piece p pcs Hfit _ IH]; simpl; [discriminate|].
  rewrite first_some_None, Forall_forall. intros Hall.
  destruct Hfit as (Hcls & Hlo & Hhi).
  specialize (Hall (length piece)).
  rewrite <- app_assoc in Hall.
  rewrite skipn_app, skipn_all, Nat.sub_diag in Hall. simpl in Hall.
  destruct (match_here p (concat pcs ++ rest)); [|now apply IH].
  discriminate Hall.
  apply in_counts. repeat split; auto. now apply run_len_app_ge.
Qed.

(** A lazy atom takes the fewest characters after which the rest of the
    pattern matches. *)
Lemma match_here_lazy_least (a : atom) (p : pattern) (s : str)
    (m : str) (pcs : list str) (k : nat) :
  greedy a = false ->
  match_here (a :: p) s = Some (m :: pcs) ->
  lo a <= k -> k < length m ->
  match_here p (skipn k s) = None.
Proof.
  intros Hg H Hlo Hk. simpl in H.
  apply first_some_Some in H as (l1 & k0 & l2 & Hl & Hk0 & Hl1).
  destruct (match_here p (skipn k0 s)) eqn:E; [|discriminate].
  simpl in Hk0. injection Hk0 as <- <-.
  assert (Hin : In k0 (counts a s)) by (rewrite Hl; apply in_or_app; right; now left).
  apply fits_firstn in Hin as [_ L]. rewrite L in Hk.
  unfold counts in Hl. rewrite Hg in Hl.
  apply seq_split_at in Hl as [Hk0 Hl1'].
  rewrite Forall_forall in Hl1.
  assert (Hin : In k l1) by (rewrite Hl1'; apply in_seq; lia).
  specialize (Hl1 k Hin). simpl in Hl1.
  destruct (match_here p (skipn k s)); [discriminate | reflexivity].
Qed.

(** [search] returns the leftmost start at which the pattern matches. *)
Lemma search_Some (p : pattern) (s : str) (i : nat) (pcs : list str) :
  search p s = Some (i, pcs) ->
  i <= length s
  /\ match_here p (skipn i s) = Some pcs
  /\ forall j, j < i -> match_here p (skipn j s) = None.
Proof.
  revert i; induction s as [|c s IH]; intros i; simpl.
  - destruct (match_here p []) eqn:E; [|discriminate].
    intros [= <- <-]. repeat split; auto. intros; lia.
  - destruct (match_here p (c :: s)) eqn:E.
    + intros [= <- <-]. repeat split; auto; [lia | intros; lia].
    + destruct (search p s) as [[i' pcs']|]; [|discriminate].
      simpl. intros [= <- <-]. destruct (IH i' eq_refl) as (Hi & Hm & Hj).
      repeat split; auto; [lia|].
      intros [|j] Hlt; simpl; auto. apply Hj. lia.
Qed.

Lemma search_None (p : pattern) (s : str) (j : nat) :
  search p s = None -> match_here p (skipn j s) = None.
Proof.
  revert j; induction s as [|c s IH]; intros j; simpl.
  - rewrite skipn_nil. now destruct (match_here p []).
  - destruct (match_here p (c :: s)) eqn:E; [discriminate|].
    destruct (search p s) as [[i' pcs']|] eqn:E'; [discriminate|].
    intros _. destruct j; simpl; auto.
Qed.

End ReFacts.

(** ** Field extractor: the warranty date *)

Section WarrantyDateFacts.
Import Re Extractor.

(** Atoms that take exactly one character are decided without
    backtracking. *)
Lemma match_here_once (c : ascii -> bool) (g : nat) (p : pattern)
    (s : str) (pcs : list str) :
  match_here (once c g :: p) s = Some pcs ->
  exists x s' pcs',
    s = x :: s' /\ c x = true /\ pcs = [x] :: pcs' /\ match_here p s' = Some pcs'.
Proof.
  intros H. simpl in H.
  apply first_some_Some in H as (l1 & k & l2 & Hl & Hk & _).
  assert (Hin : In k (counts (once c g) s)) by (rewrite Hl; apply in_or_app; right; now left).
  apply in_counts in Hin as (Hlo & Hrun & Hhi). simpl in *.
  assert (k = 1) by lia. subst k.
  destruct s as [|x s']; simpl in Hrun; [lia|].
  destruct (c x) eqn:Hc; [|lia].
  simpl in Hk. destruct (match_here p s') as [pcs'|] eqn:E; [|discriminate].
  injection Hk as <-. now exists x, s', pcs'.
Qed.

Lemma match_here_once_prefix (cs : list (ascii -> bool)) (g : nat) (p : pattern)
    (s : str) (pcs : list str) :
  match_here (map (fun c => once c g) cs ++ p) s = Some pcs ->
  exists w s' pcs',
    s = w ++ s' /\ Forall2 (fun c x => c x = true) cs w
    /\ pcs = map single w ++ pcs' /\ match_here p s' = Some pcs'.
Proof.
  revert s pcs; induction cs as [|c cs IH]; intros s pcs H.
  - exists [], s, pcs. repeat split; auto.
  - change (match_here (once c g :: (map (fun c => once c g) cs ++ p)) s = Some pcs) in H.
    apply match_here_once in H as (x & s1 & pcs1 & -> & Hc & -> & H).
    apply IH in H as (w & s' & pcs' & -> & Hw & -> & H).
    exists (x :: w), s', pcs'. repeat split; auto.
Qed.

Lemma lit_ignorecase_lower (ws w : str) :
  Forall2 (fun c x => c x = true) (map lit_ignorecase ws) w -> lower w = lower ws.
Proof.
  revert w; induction ws as [|c ws IH]; intros w H; inversion H; subst; simpl; auto.
  f_equal; [now apply Ascii.eqb_eq | now apply IH].
Qed.

Lemma token_atoms_fit (w : str) :
  lower w = py "warranty" -> Forall2 fits token_atoms (map single w).
Proof.
  intros H.
  assert (L : length w = 8) by (apply (f_equal (@length _)) in H; unfold lower in H;
                                 now rewrite length_map in H).
  do 9 (destruct w as [|? w]; try discriminate L). clear L.
  injection H as H1 H2 H3 H4 H5 H6 H7 H8.
  unfold token_atoms. simpl.
  repeat (constructor;
          [unfold fits; simpl; repeat split; auto; constructor; auto;
           unfold lit_ignorecase; apply Ascii.eqb_eq; assumption|]).
  constructor.
Qed.

Lemma not_newline_iff (c : ascii) : not_newline c = true <-> c <> nl.
Proof.
  split.
  - intros H ->. discriminate H.
  - intros H. destruct c as [[] [] [] [] [] [] [] []]; try reflexivity.
    now contradiction H.
Qed.

Lemma Forall_not_newline (mid : str) :
  Forall (fun c => not_newline c = true) mid <-> Forall (fun c => c <> nl) mid.
Proof. rewrite !Forall_forall. split; intros H c Hc; apply not_newline_iff; auto. Qed.

Lemma slash_class (c : ascii) : lit_ignorecase "/" c = true <-> c = "/"%char.
Proof.
  split; [|now intros ->].
  destruct c as [[] [] [] [] [] [] [] []]; try discriminate; reflexivity.
Qed.

Lemma fits_exact (a : atom) (piece : str) (n : nat) :
  lo a = n -> hi a = Some n -> fits a piece ->
  length piece = n /\ Forall (fun c => cls a c = true) piece.
Proof.
  intros Hlo Hhi (Hc & H1 & H2). rewrite Hhi in H2. split; [lia | assumption].
Qed.

(** Legal repetitions of the five date atoms make a date form, and
    every date form splits that way. *)
Lemma date_atoms_sound (dpcs : list str) :
  Forall2 fits date_atoms dpcs -> date_form (concat dpcs) /\ length dpcs = 5.
Proof.
  intros H. unfold date_atoms in H.
  repeat match goal with
         | H : Forall2 _ (_ :: _) _ |- _ => inversion H; subst; clear H
         | H : Forall2 _ [] _ |- _ => inversion H; subst; clear H
         end.
  repeat match goal with
         | H : fits _ _ |- _ =>
             apply fits_exact with (n := 1) in H; [destruct H | reflexivity ..]
         | H : fits _ _ |- _ =>
             apply fits_exact with (n := 2) in H; [destruct H | reflexivity ..]
         | H : fits _ _ |- _ =>
             apply fits_exact with (n := 4) in H; [destruct H | reflexivity ..]
         end.
  destruct_by_length.
  repeat match goal with
         | H : Forall _ (_ :: _) |- _ => inversion H; subst; clear H
         end.
  simpl in *.
  repeat match goal with
         | H : lit_ignorecase _ _ = true |- _ => apply slash_class in H; subst
         end.
  split; [|reflexivity].
  unfold date_form. do 8 eexists. split; [reflexivity|].
  repeat constructor; assumption.
Qed.

Lemma date_atoms_complete (d : str) :
  date_form d -> exists dpcs, Forall2 fits date_atoms dpcs /\ concat dpcs = d.
Proof.
  intros (m1 & m2 & d1 & d2 & y1 & y2 & y3 & y4 & -> & H).
  repeat match goal with
         | H : Forall _ (_ :: _) |- _ => inversion H; subst; clear H
         end.
  exists [[m1; m2]; ["/"%char]; [d1; d2]; ["/"%char]; [y1; y2; y3; y4]].
  split; [|reflexivity].
  unfold date_atoms.
  repeat (constructor; [unfold fits; simpl; repeat split; auto; repeat constructor; auto|]).
  constructor.
Qed.

Lemma date_matches (d post : str) :
  date_form d -> match_here date_atoms (d ++ post) <> None.
Proof.
  intros H. apply date_atoms_complete in H as (dpcs & HF & <-).
  now apply match_here_complete.
Qed.

Lemma warranty_split_matches (w mid d post : str) :
  lower w = py "warranty" -> Forall (fun c => c <> nl) mid -> date_form d ->
  match_here warranty_pattern (w ++ mid ++ d ++ post) <> None.
Proof.
  intros Hw Hmid Hd.
  apply date_atoms_complete in Hd as (dpcs & HF & <-).
  assert (E : w ++ mid ++ concat dpcs ++ post
              = concat (map single w ++ mid :: dpcs) ++ post).
  { rewrite concat_app. simpl. rewrite <- !app_assoc. f_equal.
    clear. induction w; simpl; congruence. }
  rewrite E. apply match_here_complete.
  unfold warranty_pattern. apply Forall2_app.
  - now apply token_atoms_fit.
  - constructor; auto. unfold fits. simpl. repeat split; auto; [|lia].
    now apply Forall_not_newline.
Qed.

End WarrantyDateFacts.

Section WarrantyDateTheorems.
Import Re Extractor.

Lemma extractWarrantyDate_eq (text : str) :
  extractWarrantyDate text
  = match search warranty_pattern text with
    | Some m => Some (group 1 warranty_pattern (snd m))
    | None => None
    end.
Proof. reflexivity. Qed.

(** The shape of a match of the warranty pattern at the start of [s]. *)
Lemma warranty_match_shape (s : str) (pcs : list str) :
  match_here warranty_pattern s = Some pcs ->
  exists w mid d rest,
    s = w ++ mid ++ d ++ rest
    /\ lower w = py "warranty" /\ length w = 8
    /\ Forall (fun c => c <> nl) mid
    /\ date_form d
    /\ group 1 warranty_pattern pcs = d
    /\ forall k, k < length mid ->
                 match_here date_atoms (skipn k (mid ++ d ++ rest)) = None.
Proof.
  intros H. unfold warranty_pattern, token_atoms in H.
  rewrite <- (map_map lit_ignorecase (fun c => once c 0)) in H.
  apply match_here_once_prefix in H as (w & s8 & pcs' & -> & Hw & -> & H).
  apply lit_ignorecase_lower in Hw. change (lower (py "warranty")) with (py "warranty") in Hw.
  assert (L : length w = 8).
  { apply (f_equal (@length _)) in Hw. unfold lower in Hw. now rewrite length_map in Hw. }
  pose proof (match_here_sound _ _ H) as [HF [rest Hrest]].
  inversion HF as [|a mid p dpcs Hfit HFd]; subst a p pcs'.
  apply date_atoms_sound in HFd as [Hd Ld].
  exists w, mid, (concat dpcs), rest.
  simpl in Hrest. rewrite <- app_assoc in Hrest.
  repeat split; auto.
  - now rewrite Hrest.
  - destruct Hfit as (Hc & _ & _). now apply Forall_not_newline.
  - clear - L Ld. destruct_by_length. reflexivity.
  - intros k Hk. rewrite <- Hrest.
    eapply match_here_lazy_least; eauto; simpl; lia.
Qed.

(** C3, as the code has it: the date returned is the leftmost date
    form of the text that has the token before it with no line break
    in between, and nothing is returned exactly when the text has no
    such date form; a text without the token gives nothing, and the
    sample receipt gives its date. *)
Theorem extractWarrantyDate_leftmost_on_line :
  (forall text,
      match extractWarrantyDate text with
      | Some d =>
          exists pre post,
            text = pre ++ d ++ post
            /\ warranty_before pre
            /\ date_form d
            /\ forall pre' d' post',
                text = pre' ++ d' ++ post' -> warranty_before pre' -> date_form d' ->
                length pre <= length pre'
      | None =>
          forall pre d post,
            text = pre ++ d ++ post -> warranty_before pre -> ~ date_form d
      end)
  /\ (forall text,
         str_in (py "warranty") (lower text) = false ->
         extractWarrantyDate text = None)
  /\ extractWarrantyDate (py "...warranty valid until 05/01/2025 thanks")
     = Some (py "05/01/2025").
Proof.
  assert (Main : forall text,
      match extractWarrantyDate text with
      | Some d =>
          exists pre post,
            text = pre ++ d ++ post
            /\ warranty_before pre
            /\ date_form d
            /\ forall pre' d' post',
                text = pre' ++ d' ++ post' -> warranty_before pre' -> date_form d' ->
                length pre <= length pre'
      | None =>
          forall pre d post,
            text = pre ++ d ++ post -> warranty_before pre -> ~ date_form d
      end).
  { intros text. rewrite extractWarrantyDate_eq.
    destruct (search warranty_pattern text) as [[i pcs]|] eqn:E; simpl.
    - apply search_Some in E as (Hi & Hm & Hleft).
      destruct (warranty_match_shape _ Hm)
        as (w & mid & d & rest & Hs & Hw & Lw & Hmid & Hd & Hg & Hleast).
      rewrite Hg.
      assert (Ht : text = (firstn i text ++ w ++ mid) ++ d ++ rest).
      { rewrite <- !app_assoc, <- Hs. symmetry. apply firstn_skipn. }
      exists (firstn i text ++ w ++ mid), rest. repeat split; auto.
      + now exists (firstn i text), w, mid.
      + intros pre' d' post' Ht' (a' & w' & mid' & -> & Hw' & Hmid') Hd'.
        assert (Lw' : length w' = 8).
        { apply (f_equal (@length _)) in Hw'. unfold lower in Hw'.
          now rewrite length_map in Hw'. }
        rewrite !length_app, length_firstn, Lw, Lw'.
        rewrite (Nat.min_l _ _ Hi).
        destruct (le_lt_dec (i + (8 + length mid)) (length a' + (8 + length mid')))
          as [|Hlt]; [assumption|exfalso].
        destruct (le_lt_dec i (length a')) as [Hge|Hlt'].
        * (* the other date form starts inside the text the lazy class took *)
          set (k := length a' + (8 + length mid') - (i + 8)).
          assert (Hk : k < length mid) by (unfold k; lia).
          specialize (Hleast k Hk).
          assert (E8 : mid ++ d ++ rest = skipn (8 + i) text).
          { rewrite <- skipn_skipn, Hs, <- Lw, skipn_app, skipn_all, Nat.sub_diag.
            reflexivity. }
          rewrite E8, skipn_skipn in Hleast.
          replace (k + (8 + i)) with (length (a' ++ w' ++ mid')) in Hleast
            by (rewrite !length_app; unfold k; lia).
          rewrite Ht', skipn_app, skipn_all, Nat.sub_diag in Hleast.
          cbn [skipn app] in Hleast. eapply date_matches; [exact Hd' | exact Hleast].
        * (* the other token starts before the match found *)
          specialize (Hleft (length a') Hlt').
          rewrite Ht', <- !app_assoc, skipn_app, skipn_all, Nat.sub_diag in Hleft.
          cbn [skipn app] in Hleft. eapply warranty_split_matches; [exact Hw' | exact Hmid' | exact Hd' | exact Hleft].
    - intros pre d post Ht (a & w & mid & -> & Hw & Hmid) Hd.
      pose proof (@search_None _ _ (length a) E) as Hn.
      rewrite Ht, <- !app_assoc, skipn_app, skipn_all, Nat.sub_diag in Hn.
      cbn [skipn app] in Hn. eapply warranty_split_matches; [exact Hw | exact Hmid | exact Hd | exact Hn]. }
  split; [exact Main|]. split; [|reflexivity].
  intros text Hno. specialize (Main text).
  destruct (extractWarrantyDate text) as [d|]; [exfalso|reflexivity].
  destruct Main as (pre & post & Ht & (a & w & mid & -> & Hw & _) & _).
  assert (Hin : str_in (py "warranty") (lower text) = true).
  { apply str_in_spec. exists (lower a), (lower (mid ++ d ++ post)).
    rewrite Ht, <- !app_assoc, !lower_app, Hw. reflexivity. }
  congruence.
Qed.

(** A text without the token, at which the second part of the theorem
    applies. *)
Lemma extractWarrantyDate_leftmost_on_line_witness :
  extractWarrantyDate (py "purchased 05/01/2025, no returns") = None.
Proof.
  apply (proj1 (proj2 extractWarrantyDate_leftmost_on_line)). reflexivity.
Defined.

(** C3, as stated, fails: the token followed by a date form on the next
    line gives no date. *)
Lemma extractWarrantyDate_next_line_counterexample :
  ~ (forall text pre w mid d post,
        text = pre ++ w ++ mid ++ d ++ post ->
        lower w = py "warranty" -> date_form d ->
        extractWarrantyDate text <> None).
Proof.
  intros H.
  apply (H (py "Warranty" ++ [nl] ++ py "05/01/2025") [] (py "Warranty") [nl]
           (py "05/01/2025") []); try reflexivity.
  unfold date_form. do 8 eexists. split; [reflexivity|].
  repeat constructor.
Qed.

End WarrantyDateTheorems.

(** ** Field extractor: the line items *)

Section LineItemFacts.
Import Re Extractor.

Lemma dot_class (c : ascii) : lit "." c = true <-> c = "."%char.
Proof. unfold lit. apply Ascii.eqb_eq. Qed.

(** The shape of a match of the products pattern at the start of [s]. *)
Lemma products_match_shape (s : str) (pcs : list str) :
  match_here products_pattern s = Some pcs ->
  exists name ws price rest,
    s = name ++ ws ++ price ++ rest
    /\ concat pcs = name ++ ws ++ price
    /\ name_form name /\ blank_form ws /\ price_form price
    /\ group 1 products_pattern pcs = name
    /\ group 2 products_pattern pcs = price.
Proof.
  intros H. apply match_here_sound in H as [HF [rest ->]].
  unfold products_pattern in HF.
  repeat match goal with
         | H : Forall2 _ (_ :: _) _ |- _ => inversion H; subst; clear H
         | H : Forall2 _ [] _ |- _ => inversion H; subst; clear H
         end.
  match goal with
  | H : fits (Atom is_name_char _ _ _ _) ?n |- _ =>
      destruct H as (Hn & Ln & _); exists n
  end.
  match goal with
  | H : fits (Atom is_space _ _ _ _) ?ws |- _ =>
      destruct H as (Hws & Lws & _); exists ws
  end.
  match goal with
  | H3 : fits (Atom is_digit 1 _ _ _) ?ds, H4 : fits (once _ _) ?dot,
    H5 : fits (Atom is_digit 2 _ _ _) ?fr |- _ =>
      destruct H3 as (Hds & Lds & _);
      apply fits_exact with (n := 1) in H4; [destruct H4 as [Ldot Hdot] | reflexivity ..];
      apply fits_exact with (n := 2) in H5; [destruct H5 as [Lfr Hfr] | reflexivity ..];
      exists (ds ++ dot ++ fr)
  end.
  exists rest.
  simpl in *.
  assert (NE : forall l : str, 1 <= length l -> l <> []).
  { intros l Hl ->. simpl in Hl. lia. }
  repeat split; auto.
  - now rewrite app_nil_r, <- !app_assoc.
  - now rewrite app_nil_r.
  - destruct_by_length.
    repeat match goal with
           | H : Forall _ (_ :: _) |- _ => inversion H; subst; clear H
           end.
    match goal with
    | H : lit _ _ = true |- _ => apply dot_class in H; subst
    end.
    match goal with
    | |- price_form (?ds ++ [_] ++ [?d1; ?d2]) => exists ds, d1, d2
    end.
    repeat split; auto.
  - unfold group. simpl. now rewrite app_nil_r.
  - unfold group. simpl. now rewrite app_nil_r.
Qed.

Lemma products_match_nonempty (s : str) (pcs : list str) :
  match_here products_pattern s = Some pcs -> 0 < length (concat pcs).
Proof.
  intros H. apply products_match_shape in H
    as (name & ws & price & rest & _ & -> & [Hn _] & _).
  destruct name; [contradiction|]. simpl. lia.
Qed.

(** A successful search splits the text around the match. *)
Lemma search_split (p : pattern) (s : str) (i : nat) (pcs : list str) :
  search p s = Some (i, pcs) ->
  exists gap rest,
    s = gap ++ concat pcs ++ rest /\ length gap = i
    /\ match_here p (concat pcs ++ rest) = Some pcs
    /\ skipn (i + length (concat pcs)) s = rest.
Proof.
  intros H. apply search_Some in H as (Hi & Hm & _).
  destruct (match_here_sound _ _ Hm) as [_ [rest Hrest]].
  exists (firstn i s), rest.
  assert (L : length (firstn i s) = i) by (rewrite length_firstn; lia).
  repeat split; auto.
  - rewrite <- Hrest. symmetry. apply firstn_skipn.
  - now rewrite <- Hrest.
  - rewrite Nat.add_comm, <- skipn_skipn, Hrest, skipn_app, skipn_all, Nat.sub_diag.
    reflexivity.
Qed.

(** With patterns that never match the empty string, the scan ends
    before the fuel does: any fuel above the length of the text gives
    the same matches. *)
Lemma finditer_fuel_enough (p : pattern) :
  (forall s pcs, match_here p s = Some pcs -> 0 < length (concat pcs)) ->
  forall f1 f2 s,
    length s < f1 -> length s < f2 ->
    finditer_fuel f1 p s = finditer_fuel f2 p s.
Proof.
  intros Hne. induction f1 as [|f1 IH]; intros f2 s H1 H2; [lia|].
  destruct f2 as [|f2]; [lia|]. simpl.
  destruct (search p s) as [[i pcs]|] eqn:E; [|reflexivity].
  f_equal.
  destruct (search_split _ _ E) as (gap & rest & Hs & Lg & Hm & Hrest).
  apply Hne in Hm.
  assert (L : length s = i + length (concat pcs) + length rest).
  { rewrite Hs, !length_app. lia. }
  rewrite Hrest. apply IH; lia.
Qed.

(** The products scan is the same for every fuel above the length of
    the text. *)
Lemma finditer_products_fuel (fuel : nat) (s : str) :
  length s < fuel ->
  finditer_fuel fuel products_pattern s = finditer products_pattern s.
Proof.
  intros H. unfold finditer.
  apply finditer_fuel_enough; [exact products_match_nonempty | lia | lia].
Qed.

Lemma finditer_products_in_order (fuel : nat) (s : str) :
  items_in_order s
    (map (fun pcs => (group 1 products_pattern pcs, group 2 products_pattern pcs))
         (finditer_fuel fuel products_pattern s)).
Proof.
  revert s; induction fuel as [|fuel IH]; intros s; simpl; [constructor|].
  destruct (search products_pattern s) as [[i pcs]|] eqn:E; [|constructor].
  destruct (search_split _ _ E) as (gap & rest & Hs & Lg & Hm & Hrest).
  rewrite Hrest. simpl.
  destruct (products_match_shape _ Hm)
    as (name & ws & price & rest' & Hs' & Hc & Hname & Hws & Hprice & -> & ->).
  rewrite Hc, <- !app_assoc in Hs' .
  do 3 apply app_inv_head in Hs'. subst rest'.
  rewrite Hs, Hc, <- !app_assoc.
  now constructor.
Qed.

(** A greedy atom takes the most characters after which the rest of
    the pattern matches. *)
Lemma match_here_greedy_most (a : atom) (p : pattern) (s : str)
    (m : str) (pcs : list str) (k : nat) :
  greedy a = true ->
  match_here (a :: p) s = Some (m :: pcs) ->
  length m < k -> In k (counts a s) ->
  match_here p (skipn k s) = None.
Proof.
  intros Hg H Hk Hin. simpl in H.
  apply first_some_Some in H as (l1 & k0 & l2 & Hl & Hk0 & Hl1).
  destruct (match_here p (skipn k0 s)) eqn:E; [|discriminate].
  simpl in Hk0. injection Hk0 as <- <-.
  assert (Hin0 : In k0 (counts a s)) by (rewrite Hl; apply in_or_app; right; now left).
  apply fits_firstn in Hin0 as [_ L]. rewrite L in Hk.
  assert (Hk1 : In k l1).
  { rewrite Hl in Hin. unfold counts in Hl. rewrite Hg in Hl.
    apply (f_equal (@rev nat)) in Hl.
    rewrite rev_involutive, rev_app_distr in Hl. simpl in Hl.
    rewrite <- app_assoc in Hl. simpl in Hl.
    apply seq_split_at in Hl as [Hk0 Hl2].
    apply in_app_or in Hin as [Hin | [Hin | Hin]]; auto; [lia|].
    exfalso. apply in_rev in Hin. rewrite Hl2 in Hin. apply in_seq in Hin. lia. }
  rewrite Forall_forall in Hl1. specialize (Hl1 k Hk1). simpl in Hl1.
  destruct (match_here p (skipn k s)); [discriminate | reflexivity].
Qed.

(** Every match reported by the scan is a match of the pattern at its
    place in the text. *)
Lemma finditer_fuel_matches (p : pattern) (fuel : nat) (s : str) :
  Forall (fun pcs => exists gap rest,
              s = gap ++ concat pcs ++ rest
              /\ match_here p (concat pcs ++ rest) = Some pcs)
         (finditer_fuel fuel p s).
Proof.
  revert s; induction fuel as [|fuel IH]; intros s; simpl; [constructor|].
  destruct (search p s) as [[i pcs]|] eqn:E; [|constructor].
  destruct (search_split _ _ E) as (gap & rest & Hs & Lg & Hm & Hrest).
  rewrite Hrest. constructor.
  - now exists gap, rest.
  - eapply Forall_impl; [|apply IH]. intros pcs' (gap' & rest' & Hr & Hm').
    exists (gap ++ concat pcs ++ gap'), rest'. split; auto.
    rewrite Hs, Hr, <- !app_assoc. reflexivity.
Qed.

Lemma is_space_name_char (c : ascii) : is_space c = true -> is_name_char c = true.
Proof. unfold is_name_char. intros ->. apply orb_true_r. Qed.

(** In a match of the products pattern the blank between the name and
    the price is one character. *)
Lemma products_match_single_blank (s : str) (pcs : list str) :
  match_here products_pattern s = Some pcs ->
  exists name c price rest,
    s = name ++ c :: price ++ rest
    /\ is_space c = true
    /\ group 1 products_pattern pcs = name
    /\ group 2 products_pattern pcs = price.
Proof.
  intros H. pose proof (match_here_sound _ _ H) as [HF [rest Hs]].
  unfold products_pattern in HF.
  inversion HF as [|a1 n p1 pcs1 Hn HF1]; subst.
  inversion HF1 as [|a2 ws p2 pcs2 Hws HF2]; subst.
  destruct Hws as (Hwc & Hwl & _). simpl in Hwc, Hwl.
  destruct ws as [|c ws]; [simpl in Hwl; lia|].
  inversion Hwc as [|? ? Hc Hws]; subst.
  assert (ws = []) as ->.
  { destruct ws as [|c' ws]; [reflexivity|exfalso].
    assert (Hnone : match_here
                      [Atom is_space 1 None true 0; Atom is_digit 1 None true 2;
                       once (lit ".") 2; Atom is_digit 2 (Some 2) true 2]
                      (skipn (S (length n)) (concat (n :: (c :: c' :: ws) :: pcs2) ++ rest))
                    = None).
    { eapply match_here_greedy_most
        with (a := Atom is_name_char 1 None true 1) (m := n);
        [reflexivity | exact H | lia |].
      apply in_counts. cbn [lo hi cls]. repeat split; [lia|].
      destruct Hn as (Hnc & _ & _). simpl in Hnc.
      replace (S (length n)) with (length (n ++ [c]))
        by (rewrite length_app; simpl; lia).
      replace (concat (n :: (c :: c' :: ws) :: pcs2) ++ rest)
        with ((n ++ [c]) ++ (c' :: ws) ++ concat pcs2 ++ rest)
        by app_normal.
      apply run_len_app_ge. apply Forall_app. split; auto.
      constructor; auto. now apply is_space_name_char. }
    replace (concat (n :: (c :: c' :: ws) :: pcs2) ++ rest)
      with ((n ++ [c]) ++ concat ((c' :: ws) :: pcs2) ++ rest) in Hnone
      by app_normal.
    replace (S (length n)) with (length (n ++ [c])) in Hnone
      by (rewrite length_app; simpl; lia).
    rewrite skipn_app, skipn_all, Nat.sub_diag in Hnone. cbn [skipn app] in Hnone.
    revert Hnone. apply match_here_complete. constructor; auto.
    inversion Hws; subst. unfold fits. simpl. repeat split; auto. lia. }
  repeat match goal with
         | H : Forall2 _ (_ :: _) _ |- _ => inversion H; subst; clear H
         | H : Forall2 _ [] _ |- _ => inversion H; subst; clear H
         end.
  match goal with
  | |- context [group 2 _ [n; [c]; ?ds; ?dot; ?fr]] =>
      exists n, c, (ds ++ dot ++ fr), rest
  end.
  repeat split; auto.
  - simpl. rewrite app_nil_r. app_normal.
  - unfold group. simpl. now rewrite app_nil_r.
  - unfold group. simpl. now rewrite app_nil_r.
Qed.

Lemma digit_not_space (c : ascii) : is_digit c = true -> is_space c = false.
Proof. destruct c as [[] [] [] [] [] [] [] []]; try discriminate; reflexivity. Qed.

Lemma digit_not_name_char (c : ascii) : is_digit c = true -> is_name_char c = false.
Proof. destruct c as [[] [] [] [] [] [] [] []]; try discriminate; reflexivity. Qed.

Lemma price_form_head (p : str) :
  price_form p -> exists d t, p = d :: t /\ is_digit d = true.
Proof.
  intros (ds & d1 & d2 & -> & Hne & Hds & _).
  destruct ds as [|d ds]; [contradiction|]. inversion Hds; subst.
  now exists d, (ds ++ ["."%char; d1; d2]).
Qed.

(** Where the pattern has a match, the matcher finds one. *)
Lemma matches_at_complete (s : str) :
  matches_at s -> match_here products_pattern s <> None.
Proof.
  intros (name & ws & price & rest & -> & [Hn1 Hn2] & [Hw1 Hw2]
          & (ds & d1 & d2 & -> & Hne & Hds & H1 & H2)).
  replace (name ++ ws ++ (ds ++ ["."%char; d1; d2]) ++ rest)
    with (concat [name; ws; ds; ["."%char]; [d1; d2]] ++ rest)
    by (simpl; rewrite ?app_nil_r; app_normal).
  apply match_here_complete. unfold products_pattern.
  assert (L : forall l : str, l <> [] -> 1 <= length l).
  { intros [|x l] Hl; [contradiction | simpl; lia]. }
  repeat (constructor; [unfold fits; simpl; repeat split; auto; repeat constructor; auto|]).
  constructor.
Qed.

Lemma matches_at_sound (s : str) (pcs : list str) :
  match_here products_pattern s = Some pcs -> matches_at s.
Proof.
  intros H. apply products_match_shape in H
    as (name & ws & price & rest & Hs & _ & Hn & Hw & Hp & _).
  now exists name, ws, price, rest.
Qed.

(** The match the matcher returns: a name, one whitespace character
    and a price. *)
Lemma products_match_exact (s : str) (pcs : list str) :
  match_here products_pattern s = Some pcs ->
  exists name c price rest,
    s = name ++ c :: price ++ rest
    /\ length (concat pcs) = length (name ++ c :: price)
    /\ name_form name /\ is_space c = true /\ price_form price
    /\ group 1 products_pattern pcs = name
    /\ group 2 products_pattern pcs = price.
Proof.
  intros H.
  destruct (products_match_shape _ H)
    as (name & ws & price & rest & Hs & Hc & Hn & [Hw1 Hw2] & Hp & G1 & G2).
  destruct (products_match_single_blank _ H)
    as (name' & c & price' & rest' & Hs' & Hsp & G1' & G2').
  rewrite G1 in G1'. rewrite G2 in G2'. subst name' price'.
  rewrite Hs in Hs'. apply app_inv_head in Hs'.
  destruct ws as [|w0 ws]; [contradiction|]. injection Hs' as -> Hs'.
  assert (ws = []) as ->.
  { destruct ws as [|x ws]; [reflexivity|exfalso].
    destruct (price_form_head Hp) as (d & t & -> & Hd).
    injection Hs' as -> _. inversion Hw2 as [|? ? _ Hw3]; subst.
    inversion Hw3 as [|? ? Hx _]; subst.
    apply digit_not_space in Hd. congruence. }
  simpl in Hs'. apply app_inv_head in Hs'. subst rest'.
  exists name, c, price, rest. repeat split; auto.
  - now rewrite Hc.
  - now destruct Hn.
  - now destruct Hn.
Qed.

(** The scan of the text finds every match: what it returns is the
    scan of the text by the pattern. *)
Lemma finditer_products_scan (fuel : nat) (s : str) :
  length s < fuel ->
  items_scan s
    (map (fun pcs => (group 1 products_pattern pcs, group 2 products_pattern pcs))
         (finditer_fuel fuel products_pattern s)).
Proof.
  revert s; induction fuel as [|fuel IH]; intros s Hlen; [lia|]. simpl.
  destruct (search products_pattern s) as [[i pcs]|] eqn:E.
  - destruct (search_split _ _ E) as (gap & rest & Hs & Lg & Hm & Hrest).
    apply search_Some in E as (_ & _ & Hleft).
    rewrite Hrest. simpl.
    destruct (products_match_exact _ Hm)
      as (name & c & price & rest' & Hs' & Hl & Hn & Hc & Hp & -> & ->).
    assert (Hcat : concat pcs ++ rest = name ++ c :: price ++ rest') by exact Hs'.
    assert (rest' = rest) as ->.
    { apply (f_equal (skipn (length (concat pcs)))) in Hcat.
      rewrite skipn_app, skipn_all, Nat.sub_diag in Hcat. cbn [skipn app] in Hcat.
      rewrite Hl in Hcat.
      replace (name ++ c :: price ++ rest') with ((name ++ c :: price) ++ rest') in Hcat
        by app_normal.
      rewrite skipn_app, skipn_all, Nat.sub_diag in Hcat. cbn [skipn app] in Hcat.
      congruence. }
    assert (Ht : s = gap ++ name ++ c :: price ++ rest) by (rewrite Hs, Hcat; reflexivity).
    assert (Hr : length rest < fuel).
    { rewrite Ht in Hlen. rewrite !length_app in Hlen. simpl in Hlen.
      rewrite length_app in Hlen. destruct Hn as [Hn _].
      destruct name; [contradiction|]. simpl in Hlen. lia. }
    specialize (IH rest Hr). rewrite Ht in Hleft. rewrite Ht.
    constructor; auto.
    intros j Hj Hmatch. apply matches_at_complete in Hmatch. apply Hmatch.
    apply Hleft. lia.
  - constructor. intros j Hmatch. apply matches_at_complete in Hmatch.
    apply Hmatch. now apply search_None.
Qed.

Lemma extractLineItems_scan (text : str) :
  items_scan text (extractLineItems text).
Proof. apply finditer_products_scan. lia. Qed.

(** Two runs of one class that end before characters outside the
    class are the same run. *)
Lemma run_unique (P : ascii -> bool) (l1 l2 : str) (x y : ascii) (t1 t2 : str) :
  l1 ++ x :: t1 = l2 ++ y :: t2 ->
  Forall (fun c => P c = true) l1 -> Forall (fun c => P c = true) l2 ->
  P x = false -> P y = false ->
  l1 = l2 /\ x = y /\ t1 = t2.
Proof.
  revert l2; induction l1 as [|a l1 IH]; intros [|b l2] H H1 H2 Hx Hy; simpl in H.
  - injection H as -> ->. auto.
  - injection H as -> _. inversion H2; subst. congruence.
  - injection H as -> _. inversion H1; subst. congruence.
  - injection H as -> H. inversion H1; inversion H2; subst.
    destruct (IH l2 H) as (-> & -> & ->); auto.
Qed.

Lemma app_eq_length (A : Type) (l1 l2 a b : list A) :
  l1 ++ a = l2 ++ b -> length l1 = length l2 -> l1 = l2 /\ a = b.
Proof.
  revert l2; induction l1 as [|x l1 IH]; intros [|y l2] H L; simpl in *;
    try discriminate; auto.
  injection H as -> H. destruct (IH l2 H) as [-> ->]; auto.
Qed.

Lemma matches_at_after_gap (gap name price rest : str) (c : ascii) :
  name_form name -> is_space c = true -> price_form price ->
  matches_at (skipn (length gap) (gap ++ name ++ c :: price ++ rest)).
Proof.
  intros Hn Hc Hp. rewrite skipn_app, skipn_all, Nat.sub_diag. cbn [skipn app].
  exists name, [c], price, rest.
  split; [reflexivity|]. split; [exact Hn|]. split; [|exact Hp].
  split; [discriminate | now constructor].
Qed.

(** A match that starts at a given place with a blank of one character
    has one name, one price and one rest. *)
Lemma match_split_unique (n1 n2 p1 p2 r1 r2 : str) (c1 c2 : ascii) :
  n1 ++ c1 :: p1 ++ r1 = n2 ++ c2 :: p2 ++ r2 ->
  name_form n1 -> is_space c1 = true -> price_form p1 ->
  name_form n2 -> is_space c2 = true -> price_form p2 ->
  n1 = n2 /\ p1 = p2 /\ r1 = r2.
Proof.
  intros H [_ Hn1] Hc1 Hp1 [_ Hn2] Hc2 Hp2.
  destruct Hp1 as (ds1 & a1 & b1 & -> & _ & Hds1 & _).
  destruct Hp2 as (ds2 & a2 & b2 & -> & _ & Hds2 & _).
  assert (Hd : exists d1 t1 d2 t2,
             (ds1 ++ ["."%char; a1; b1]) ++ r1 = d1 :: t1
             /\ (ds2 ++ ["."%char; a2; b2]) ++ r2 = d2 :: t2
             /\ is_name_char d1 = false /\ is_name_char d2 = false).
  { destruct ds1 as [|d1 ds1], ds2 as [|d2 ds2]; simpl;
      repeat match goal with
             | H : Forall _ (_ :: _) |- _ => inversion H; subst; clear H
             end;
      do 4 eexists; repeat split; try reflexivity;
      try (now apply digit_not_name_char); reflexivity. }
  destruct Hd as (d1 & t1 & d2 & t2 & E1 & E2 & Hd1 & Hd2).
  replace (n1 ++ c1 :: (ds1 ++ ["."%char; a1; b1]) ++ r1)
    with ((n1 ++ [c1]) ++ d1 :: t1) in H by (rewrite E1; app_normal).
  replace (n2 ++ c2 :: (ds2 ++ ["."%char; a2; b2]) ++ r2)
    with ((n2 ++ [c2]) ++ d2 :: t2) in H by (rewrite E2; app_normal).
  apply (run_unique is_name_char) in H as (Hn & -> & ->); auto;
    try (apply Forall_app; split; auto; constructor; auto;
         now apply is_space_name_char).
  apply app_inj_tail in Hn as [-> ->].
  rewrite <- E2 in E1. rewrite <- !app_assoc in E1. simpl in E1.
  apply (run_unique is_digit) in E1 as (-> & _ & E); auto.
  injection E as -> -> ->. auto.
Qed.

(** The scan of a text is one list of items. *)
Lemma items_scan_unique (text : str) (l1 l2 : list (str * str)) :
  items_scan text l1 -> items_scan text l2 -> l1 = l2.
Proof.
  intros H1; revert l2.
  induction H1 as [text Hnone | gap name c price rest items Hgap Hn Hc Hp _ IH];
    intros l2 H2.
  - inversion H2 as [|g2 n2 c2 p2 r2 its2 Hgap2 Hn2 Hc2 Hp2 Hrest2 Ht]; [reflexivity|].
    subst. exfalso. apply (Hnone (length g2)).
    now apply matches_at_after_gap.
  - inversion H2 as [t Hnone Ht | g2 n2 c2 p2 r2 its2 Hgap2 Hn2 Hc2 Hp2 Hrest2 Ht].
    + subst. exfalso. apply (Hnone (length gap)). now apply matches_at_after_gap.
    + subst l2.
      assert (L : length g2 = length gap).
      { destruct (Nat.lt_trichotomy (length g2) (length gap)) as [Hlt | [Heq | Hgt]];
          [exfalso | assumption | exfalso].
        - apply (Hgap (length g2) Hlt). rewrite <- Ht.
          now apply matches_at_after_gap.
        - rewrite Ht in Hgap2. apply (Hgap2 (length gap) Hgt).
          now apply matches_at_after_gap. }
      apply app_eq_length in Ht as [-> Ht]; auto.
      apply match_split_unique in Ht as (-> & -> & ->); auto.
      f_equal. now apply IH.
Qed.

Lemma extractLineItems_in_order (text : str) :
  items_in_order text (extractLineItems text).
Proof. apply finditer_products_in_order. Qed.

Lemma no_match_in_digits (s : str) :
  Forall (fun c => is_digit c = true) s -> ~ matches_at s.
Proof.
  intros Hs (name & ws & price & rest & -> & [Hne Hn] & _).
  destruct name as [|x name]; [contradiction|].
  inversion Hn; subst. inversion Hs; subst.
  match goal with
  | H : is_digit x = true |- _ => apply digit_not_name_char in H
  end.
  congruence.
Qed.

Lemma no_match_after_digits (more : str) (j : nat) :
  Forall (fun c => is_digit c = true) more -> ~ matches_at (skipn j more).
Proof.
  intros H. apply no_match_in_digits.
  rewrite <- (firstn_skipn j more) in H. now apply Forall_app in H.
Qed.






End LineItemFacts.

Section LineItemTheorems.
Import Re Extractor.

(** C6, as the code has it: the items are the scan of the text by the
    pattern, match after match from the left with none left out, each
    search resuming after the price of the match before; the list is
    the only one that is such a scan; every pair is one full match;
    and the sample line gives Milk and Bread in that order, the second
    name with the blank that precedes it. *)
Theorem extractLineItems_in_order_sample :
  (forall text, items_in_order text (extractLineItems text))
  /\ (forall text items,
         items_scan text items <-> items = extractLineItems text)
  /\ extractLineItems (py "Milk 3.50 Bread 2.25")
     = [(py "Milk", py "3.50"); (py " Bread", py "2.25")].
Proof.
  split; [exact extractLineItems_in_order|]. split; [|reflexivity].
  intros text items. split.
  - intros H. apply items_scan_unique with (text := text); auto.
    apply extractLineItems_scan.
  - intros ->. apply extractLineItems_scan.
Qed.

(** A one-item text, with its scan built by hand. *)
Lemma extractLineItems_in_order_sample_witness :
  [(py "Milk", py "3.50")] = extractLineItems (py "Milk 3.50").
Proof.
  apply (proj1 (proj2 extractLineItems_in_order_sample)).
  apply (@scan_next [] (py "Milk") " "%char (py "3.50") [] []).
  - simpl. intros j Hj. lia.
  - split; [discriminate | repeat constructor].
  - reflexivity.
  - exists (py "3"), "5"%char, "0"%char. repeat split; try reflexivity.
    + discriminate.
    + repeat constructor.
  - constructor. intros j. apply no_match_after_digits. constructor.
Defined.

(** C6, as stated, fails: the second name is not [Bread]. *)
Lemma extractLineItems_sample_counterexample :
  extractLineItems (py "Milk 3.50 Bread 2.25")
  <> [(py "Milk", py "3.50"); (py "Bread", py "2.25")].
Proof. vm_compute. discriminate. Qed.




End LineItemTheorems.

(** ** Warranty monitor *)

Section MonitorFacts.
Import Calendar Py Strptime Monitor.

Lemma strptime_raises_ValueError (s : str) (e : exn) :
  strptime_mdY s = Raise e -> is_ValueError e = true.
Proof.
  unfold strptime_mdY.
  destruct (match_format format_mdY s) as [[toks rest]|]; [|now intros [= <-]].
  repeat (destruct toks as [|? toks]; try now intros [= <-]).
  destruct rest; [|now intros [= <-]].
  destruct (valid_date _ _ _); [discriminate | now intros [= <-]].
Qed.

Lemma set_log_same (w : world) : set_log (log w) w = w.
Proof. now destruct w. Qed.

Lemma set_log_twice (l1 l2 : list (level * str)) (w : world) :
  set_log l2 (set_log l1 w) = set_log l2 w.
Proof. reflexivity. Qed.

(** One turn of the loop: the record adds what the rule says to the
    list and its warning to the log; nothing is raised. *)
Lemma check_one_run (today : date) (th : Z) (acc : list (str * date * str))
    (r : str * str * str) (w : world) :
  check_one today th acc r w
  = (Ok (acc ++ expiring_of today th r), set_log (log w ++ warnings_of r) w).
Proof.
  destruct r as [[item date_str] path].
  unfold check_one, try_except, bind, lift, expiring_of, warnings_of.
  destruct (strptime_mdY date_str) as [d|e] eqn:E.
  - rewrite !app_nil_r, set_log_same.
    destruct (days_between d today <=? th)%Z; unfold ret; now rewrite ?app_nil_r.
  - rewrite (strptime_raises_ValueError _ E). unfold logging, ret. simpl.
    now rewrite app_nil_r.
Qed.

Lemma check_loop_run (today : date) (th : Z) (ws : list (str * str * str))
    (acc : list (str * date * str)) (w : world) :
  check_loop today th ws acc w
  = (Ok (acc ++ findExpiringSoon_spec today th ws),
     set_log (log w ++ flat_map warnings_of ws) w).
Proof.
  revert acc w; induction ws as [|r ws IH]; intros acc w; simpl.
  - unfold ret. now rewrite !app_nil_r, set_log_same.
  - unfold bind. rewrite check_one_run, IH. simpl.
    now rewrite set_log_twice, <- !app_assoc.
Qed.

Lemma check_expiring_warranties_run (ws : list (str * str * str)) (th : Z) (w : world) :
  check_expiring_warranties ws th w
  = (Ok (findExpiringSoon_spec (dt_date (clock w)) th ws),
     set_log (log w ++ flat_map warnings_of ws) w).
Proof.
  unfold check_expiring_warranties, bind, datetime_now. now rewrite check_loop_run.
Qed.

Lemma in_findExpiringSoon_spec (today : date) (th : Z) (ws : list (str * str * str))
    (item : str) (d : date) (path : str) :
  In (item, d, path) (findExpiringSoon_spec today th ws) <->
  exists date_str,
    In (item, date_str, path) ws
    /\ strptime_mdY date_str = Ok d
    /\ (days_between d today <= th)%Z.
Proof.
  unfold findExpiringSoon_spec. rewrite in_flat_map. split.
  - intros ([[item' ds] path'] & Hin & H). unfold expiring_of in H.
    destruct (strptime_mdY ds) as [d'|] eqn:E; [|contradiction].
    destruct (days_between d' today <=? th)%Z eqn:L; [|contradiction].
    destruct H as [[= -> -> ->]|[]].
    exists ds. repeat split; auto. now apply Z.leb_le.
  - intros (ds & Hin & E & L). exists (item, ds, path). split; auto.
    unfold expiring_of. rewrite E. apply Z.leb_le in L. rewrite L. now left.
Qed.

End MonitorFacts.

Section MonitorTheorems.
Import Calendar Py Strptime Monitor.

(** C4: the monitor returns, in the order of the input, the records
    whose date string parses and whose date is at most the threshold
    days after today, each with its parsed date; a date of yesterday is
    kept. *)
Theorem check_expiring_warranties_rule :
  (forall ws th w,
      exists res,
        fst (check_expiring_warranties ws th w) = Ok res
        /\ res = findExpiringSoon_spec (dt_date (clock w)) th ws
        /\ forall item d path,
            In (item, d, path) res <->
            exists date_str,
              In (item, date_str, path) ws
              /\ strptime_mdY date_str = Ok d
              /\ (days_between d (dt_date (clock w)) <= th)%Z)
  /\ fst (check_expiring_warranties
            [(py "a.jpg", py "01/09/2024", py "out/txt/other/a.txt");
             (py "b.jpg", py "02/01/2024", py "out/txt/other/b.txt");
             (py "c.jpg", py "01/15/2024", py "out/txt/other/c.txt")]
            default_days_threshold (world_at (Date 2024 1 10) 0))
     = Ok [(py "a.jpg", Date 2024 1 9, py "out/txt/other/a.txt");
           (py "c.jpg", Date 2024 1 15, py "out/txt/other/c.txt")].
Proof.
  split; [|reflexivity].
  intros ws th w. eexists. rewrite check_expiring_warranties_run. simpl.
  split; [reflexivity|]. split; [reflexivity|].
  intros. apply in_findExpiringSoon_spec.
Qed.

(** C5: a record whose date string does not parse changes nothing but
    the log: the call returns normally, with the list it returns
    without that record, and the log has one more entry, the warning
    for that record, in its place among the others. *)
Theorem check_expiring_warranties_skips_invalid
    (ws1 ws2 : list (str * str * str)) (item date_str path : str)
    (th : Z) (w : world) (e : exn) :
  strptime_mdY date_str = Raise e ->
  exists res l1 l2,
    fst (check_expiring_warranties (ws1 ++ (item, date_str, path) :: ws2) th w) = Ok res
    /\ fst (check_expiring_warranties (ws1 ++ ws2) th w) = Ok res
    /\ log (snd (check_expiring_warranties (ws1 ++ (item, date_str, path) :: ws2) th w))
       = l1 ++ invalid_date_warning item date_str :: l2
    /\ log (snd (check_expiring_warranties (ws1 ++ ws2) th w)) = l1 ++ l2.
Proof.
  intros E. rewrite !check_expiring_warranties_run. simpl.
  unfold findExpiringSoon_spec. rewrite !flat_map_app. simpl.
  unfold expiring_of at 2. unfold warnings_of at 2. rewrite E. simpl.
  eexists. exists (log w ++ flat_map warnings_of ws1), (flat_map warnings_of ws2).
  repeat split; now rewrite <- ?app_assoc.
Qed.

(** A record with month 13 between two good ones. *)
Lemma check_expiring_warranties_skips_invalid_witness :
  exists res l1 l2,
    fst (check_expiring_warranties
           ([(py "a.jpg", py "01/15/2024", py "a.txt")]
            ++ (py "b.jpg", py "13/40/2024", py "b.txt")
            :: [(py "c.jpg", py "01/12/2024", py "c.txt")])
           7 (world_at (Date 2024 1 10) 0)) = Ok res
    /\ fst (check_expiring_warranties
              ([(py "a.jpg", py "01/15/2024", py "a.txt")]
               ++ [(py "c.jpg", py "01/12/2024", py "c.txt")])
              7 (world_at (Date 2024 1 10) 0)) = Ok res
    /\ log (snd (check_expiring_warranties
                   ([(py "a.jpg", py "01/15/2024", py "a.txt")]
                    ++ (py "b.jpg", py "13/40/2024", py "b.txt")
                    :: [(py "c.jpg", py "01/12/2024", py "c.txt")])
                   7 (world_at (Date 2024 1 10) 0)))
       = l1 ++ invalid_date_warning (py "b.jpg") (py "13/40/2024") :: l2
    /\ log (snd (check_expiring_warranties
                   ([(py "a.jpg", py "01/15/2024", py "a.txt")]
                    ++ [(py "c.jpg", py "01/12/2024", py "c.txt")])
                   7 (world_at (Date 2024 1 10) 0))) = l1 ++ l2.
Proof.
  apply (@check_expiring_warranties_skips_invalid _ _ _ _ _ _ _
           (ValueError (py "time data does not match format"))).
  reflexivity.
Defined.

(** C9, as the code has it: the monitor reads the date from the clock
    of the machine, and two runs on the same records and threshold
    return the same list when the clock shows the same date, whatever
    the time of day and the state of the log. *)
Theorem check_expiring_warranties_same_day
    (ws : list (str * str * str)) (th : Z) (w1 w2 : world) :
  dt_date (clock w1) = dt_date (clock w2) ->
  fst (check_expiring_warranties ws th w1) = fst (check_expiring_warranties ws th w2).
Proof.
  intros E. rewrite !check_expiring_warranties_run. simpl. now rewrite E.
Qed.

Lemma check_expiring_warranties_same_day_witness :
  fst (check_expiring_warranties [(py "a.jpg", py "01/15/2024", py "a.txt")] 7
         (world_at (Date 2024 1 10) 32400))
  = fst (check_expiring_warranties [(py "a.jpg", py "01/15/2024", py "a.txt")] 7
           (set_log [(INFO, py "Processed a.jpg")] (world_at (Date 2024 1 10) 61200))).
Proof.
  apply check_expiring_warranties_same_day. reflexivity.
Defined.

(** C9, as stated, fails: today is not an argument, and with the same
    records and threshold the result changes with the clock. *)
Lemma check_expiring_warranties_clock_counterexample :
  ~ (forall ws th w1 w2,
        fst (check_expiring_warranties ws th w1)
        = fst (check_expiring_warranties ws th w2)).
Proof.
  intros H.
  specialize (H [(py "a.jpg", py "01/15/2024", py "a.txt")] 7%Z
                (world_at (Date 2024 1 10) 0) (world_at (Date 2023 12 10) 0)).
  vm_compute in H. discriminate H.
Qed.

End MonitorTheorems.

(** ** Output writer and pipeline *)

Section OutputFacts.
Import Py Output Frames.

Lemma startswith_refl (p : str) : startswith p p = true.
Proof. induction p; simpl; auto. now rewrite Ascii.eqb_refl. Qed.

Lemma str_eqb_refl (p : str) : str_eqb p p = true.
Proof. unfold str_eqb. now rewrite startswith_refl, Nat.eqb_refl. Qed.

Lemma file_write_run (path data old : str) (w : world) :
  writes_allowed path w ->
  fs_read path (files w) = Some old ->
  exists w',
    file_write path data w = (Ok tt, w')
    /\ fs_read path (files w') = Some (old ++ data)
    /\ log w' = log w
    /\ writes_allowed path w'
    /\ close_error w' = close_error w.
Proof.
  intros Hw H. unfold file_write. rewrite (Hw data), H. eexists.
  split; [reflexivity|]. cbn [files log set_files close_error].
  repeat split; auto. simpl. now rewrite str_eqb_refl.
Qed.

Lemma write_products_run (path : str) (products : list (str * str))
    (old : str) (w : world) :
  writes_allowed path w ->
  fs_read path (files w) = Some old ->
  exists w',
    write_products path products w = (Ok tt, w')
    /\ fs_read path (files w')
       = Some (old ++ flat_map (fun np => fst np ++ py ": " ++ snd np ++ [nl]) products)
    /\ log w' = log w
    /\ close_error w' = close_error w.
Proof.
  revert old w; induction products as [|[name price] products IH]; intros old w Hw H;
    cbn [write_products flat_map fst snd].
  - exists w. now rewrite app_nil_r.
  - unfold bind.
    destruct (file_write_run (name ++ py ": " ++ price ++ [nl]) Hw H)
      as (w1 & -> & H1 & L1 & Hw1 & C1).
    destruct (IH _ _ Hw1 H1) as (w2 & -> & H2 & L2 & C2).
    exists w2. repeat split; [|congruence|congruence].
    rewrite H2. now rewrite <- !app_assoc.
Qed.

(** The body of the [with] block, on a file just opened. *)
Lemma write_body_run (path category : str) (warranty_date : option str)
    (products : list (str * str)) (text : str) (w0 : world) :
  writes_allowed path w0 ->
  fs_read path (files w0) = Some [] ->
  exists w',
    bind (file_write path (py "Category: " ++ category ++ [nl; nl]))
      (fun _ =>
         bind (file_write path (py "Extracted Text:" ++ [nl] ++ text ++ [nl; nl]))
           (fun _ =>
              bind (if truthy warranty_date
                    then file_write path
                           (py "Warranty Date: "
                            ++ match warranty_date with Some d => d | None => [] end
                            ++ [nl])
                    else ret tt)
                (fun _ =>
                   bind (file_write path (py "Products:" ++ [nl]))
                     (fun _ => write_products path products)))) w0
    = (Ok tt, w')
    /\ fs_read path (files w') = Some (layout category warranty_date products text)
    /\ log w' = log w0
    /\ close_error w' = close_error w0.
Proof.
  intros Hw0 H0. unfold bind.
  destruct (file_write_run (py "Category: " ++ category ++ [nl; nl]) Hw0 H0)
    as (w1 & -> & H1 & L1 & Hw1 & C1).
  destruct (file_write_run (py "Extracted Text:" ++ [nl] ++ text ++ [nl; nl]) Hw1 H1)
    as (w2 & -> & H2 & L2 & Hw2 & C2).
  assert (H3 : exists w3,
             (if truthy warranty_date
              then file_write path
                     (py "Warranty Date: "
                      ++ match warranty_date with Some d => d | None => [] end ++ [nl])
              else ret tt) w2 = (Ok tt, w3)
             /\ fs_read path (files w3)
                = Some (([] ++ py "Category: " ++ category ++ [nl; nl])
                        ++ (py "Extracted Text:" ++ [nl] ++ text ++ [nl; nl])
                        ++ match warranty_date with
                           | Some (c :: d) => py "Warranty Date: " ++ (c :: d) ++ [nl]
                           | _ => []
                           end)
             /\ log w3 = log w2
             /\ writes_allowed path w3
             /\ close_error w3 = close_error w2).
  { destruct warranty_date as [[|c d]|]; cbn [truthy].
    - exists w2. unfold ret. rewrite app_nil_r. repeat split; auto.
    - destruct (file_write_run (py "Warranty Date: " ++ (c :: d) ++ [nl]) Hw2 H2)
        as (w3 & E3 & H3 & L3 & Hw3 & C3).
      exists w3. repeat split; auto. rewrite H3. now rewrite <- !app_assoc.
    - exists w2. unfold ret. rewrite app_nil_r. repeat split; auto. }
  destruct H3 as (w3 & -> & H3 & L3 & Hw3 & C3).
  destruct (file_write_run (py "Products:" ++ [nl]) Hw3 H3)
    as (w4 & -> & H4 & L4 & Hw4 & C4).
  destruct (write_products_run products Hw4 H4) as (w5 & -> & H5 & L5 & C5).
  exists w5. split; [reflexivity|]. repeat split.
  - rewrite H5. unfold layout. f_equal.
    change [nl; nl] with ([nl] ++ [nl]). rewrite <- !app_assoc. reflexivity.
  - congruence.
  - congruence.
Qed.

(** When the file can be opened, written and closed, the writer leaves
    the layout in it: the category line, a blank line, the extracted
    text under its header, a blank line, the warranty line when there
    is a date, the products header and one line per product, in their
    order. *)
Lemma generate_output_layout (path category : str) (warranty_date : option str)
    (products : list (str * str)) (text : str) (w : world) :
  has_nul path = false ->
  open_error w path = None ->
  writes_allowed path w ->
  close_error w path = None ->
  exists w',
    generate_output path category warranty_date products text w = (Ok tt, w')
    /\ fs_read path (files w') = Some (layout category warranty_date products text)
    /\ log w' = log w ++ [(DEBUG, py "Generated " ++ path)].
Proof.
  intros Hnul Hopen Hw Hclose.
  unfold generate_output, try_except, with_open_w, open_w.
  unfold bind at 1. rewrite Hnul, Hopen.
  set (w0 := set_files ((path, []) :: files w) w).
  assert (H0 : fs_read path (files w0) = Some []) by (simpl; now rewrite str_eqb_refl).
  assert (Hw0 : writes_allowed path w0) by exact Hw.
  destruct (write_body_run category warranty_date products text Hw0 H0)
    as (w5 & -> & H5 & L5 & C5).
  unfold file_close. rewrite C5. change (close_error w0) with (close_error w).
  rewrite Hclose. unfold logging. eexists. split; [reflexivity|].
  cbn [files log set_log]. split; [exact H5|]. now rewrite L5.
Qed.

(** [os.path.join] puts one separator between a directory that does
    not end with one and a relative name. *)
Lemma path_join_plain (a b : str) (c : ascii) (r : str) :
  startswith (py "/") b = false -> rev a = c :: r -> c <> "/"%char ->
  path_join a b = a ++ py "/" ++ b.
Proof.
  intros Hb Ha Hc. unfold path_join. rewrite Hb, Ha.
  apply Ascii.eqb_neq in Hc. now rewrite Hc.
Qed.

(** The path of the artifact under the default output directory. *)
Lemma output_path_default :
  path_join (path_join (py "out/txt/") (py "grocery")) (py "receipt1" ++ py ".txt")
  = py "out/txt/grocery/receipt1.txt".
Proof. reflexivity. Qed.

End OutputFacts.

Section PipelineTheorems.
Import Py Pipeline.

(** The module binds no name [Image]. *)
Lemma Image_unbound :
  existsb (str_eqb (py "Image")) module_globals = false.
Proof. reflexivity. Qed.

(** C8: whatever the image, the imaging library and the OCR engine,
    [process_receipt] stops at the read of the unbound name [Image]:
    it logs the error, returns no category, no date and no path, and
    creates no directory and no file, so no artifact is written. *)
Theorem process_receipt_writes_nothing
    (image : Type) (pil_open : str -> result image)
    (point_threshold : image -> image) (image_to_string : image -> result str)
    (stem : str -> str) (repr_products : list (str * str) -> str)
    (image_path output_dir : str) (w : world) :
  exists w',
    process_receipt pil_open point_threshold image_to_string stem repr_products
      image_path output_dir w
    = (Ok (None, None, None), w')
    /\ files w' = files w
    /\ dirs w' = dirs w
    /\ log w'
       = log w
         ++ [(DEBUG, py "Processing receipt: " ++ image_path);
             (ERROR, py "Error processing image " ++ image_path
                     ++ py ": name 'Image' is not defined")].
Proof.
  eexists. unfold process_receipt, try_except, bind, global.
  rewrite Image_unbound. unfold logging, raise, ret. cbn [is_Exception exn_str].
  split; [reflexivity|]. cbn [files dirs log set_log].
  repeat split. now rewrite <- app_assoc.
Qed.

End PipelineTheorems.

(** * Further properties *)

(** ** Categorizer *)

Section CategorizerMore.
Import Py Categorizer CategoryOrder.

Lemma categorize_loop_lower (items : list (str * list str)) (t1 t2 : str) :
  lower t1 = lower t2 -> categorize_loop items t1 = categorize_loop items t2.
Proof.
  intros H. induction items as [|[c ks] items IH]; simpl; [reflexivity|].
  now rewrite H, IH.
Qed.

(** X1: the categorizer is blind to letter case: two texts that are
    equal once lowered get the same label. *)
Theorem categorize_receipt_case_blind (t1 t2 : str) :
  lower t1 = lower t2 -> categorize_receipt t1 = categorize_receipt t2.
Proof. apply categorize_loop_lower. Qed.

Lemma categorize_receipt_case_blind_witness :
  categorize_receipt (py "SuperMarket") = categorize_receipt (py "SUPERMARKET").
Proof. apply categorize_receipt_case_blind. reflexivity. Defined.

Lemma keywords_found_in_longer (ks : list str) (a t b : str) :
  existsb (fun k => str_in k (lower t)) ks = true ->
  existsb (fun k => str_in k (lower (a ++ t ++ b))) ks = true.
Proof.
  rewrite !existsb_exists. intros (k & Hk & H). exists k. split; auto.
  apply str_in_spec in H as (x & y & H). apply str_in_spec.
  exists (lower a ++ x), (y ++ lower b).
  rewrite !lower_app, H, <- !app_assoc. reflexivity.
Qed.

(** X2: text around a receipt never moves it to a later entry of the
    table: the label of a text that contains [t] comes at the place of
    the label of [t] or before it, the default label being last. *)
Theorem categorize_receipt_rank_monotone (a t b : str) :
  category_rank (categorize_receipt (a ++ t ++ b))
  <= category_rank (categorize_receipt t).
Proof.
  unfold categorize_receipt, categories. cbn [categorize_loop].
  repeat match goal with
         | |- context [existsb (fun k => str_in k (lower t)) ?ks] =>
             let E := fresh "E" in
             destruct (existsb (fun k => str_in k (lower t)) ks) eqn:E;
             [apply (keywords_found_in_longer ks a t b) in E; rewrite E | clear E]
         end;
    repeat match goal with
           | |- context [if ?c then _ else _] => destruct c
           end;
    apply Nat.leb_le; reflexivity.
Qed.

End CategorizerMore.

(** ** Field extractor *)

Section ExtractorMore.
Import Re Extractor.

(** X3: between the name and the price of an item the pattern takes
    exactly one whitespace character; any other whitespace before the
    price is kept at the end of the name. *)
Theorem extractLineItems_single_blank (text : str) :
  Forall (fun np => exists gap c rest,
              text = gap ++ fst np ++ c :: snd np ++ rest
              /\ is_space c = true)
         (extractLineItems text).
Proof.
  unfold extractLineItems, extract_warranty_and_products. cbn [snd].
  apply Forall_map. eapply Forall_impl; [|apply finditer_fuel_matches].
  intros pcs (gap & rest & Hs & Hm). cbn [fst snd].
  apply products_match_single_blank in Hm
    as (name & c & price & rest' & Hs' & Hc & -> & ->).
  exists gap, c, rest'. split; auto. now rewrite Hs, Hs'.
Qed.

Lemma price_form_length (p : str) : price_form p -> 4 <= length p.
Proof.
  intros (ds & d1 & d2 & -> & Hne & _). rewrite length_app. simpl.
  destruct ds; [contradiction|]. simpl. lia.
Qed.

Lemma items_in_order_length (text : str) (items : list (str * str)) :
  items_in_order text items -> 6 * length items <= length text.
Proof.
  induction 1 as [|gap name ws price rest items [Hn _] [Hw _] Hp _ IH]; simpl; [lia|].
  apply price_form_length in Hp. rewrite !length_app.
  destruct name; [contradiction|]. destruct ws; [contradiction|]. simpl. lia.
Qed.

(** X4: an item takes at least six characters of the text and items do
    not overlap, so a text of n characters gives at most n/6 items. *)
Theorem extractLineItems_count_bound (text : str) :
  6 * length (extractLineItems text) <= length text.
Proof. apply items_in_order_length, extractLineItems_in_order. Qed.

(** The date returned stands in the text after the token and has the
    date form. *)
Lemma extractWarrantyDate_Some_inv (text d : str) :
  extractWarrantyDate text = Some d ->
  exists pre post, text = pre ++ d ++ post /\ date_form d.
Proof.
  rewrite extractWarrantyDate_eq.
  destruct (search warranty_pattern text) as [[i pcs]|] eqn:E; [|discriminate].
  simpl. intros [= <-].
  apply search_Some in E as (Hi & Hm & _).
  destruct (warranty_match_shape _ Hm)
    as (w & mid & d & rest & Hs & _ & _ & _ & Hd & -> & _).
  exists (firstn i text ++ w ++ mid), rest. split; auto.
  rewrite <- !app_assoc, <- Hs. symmetry. apply firstn_skipn.
Qed.

(** X5: both patterns need digits: a text without any digit gives no
    warranty date and no line item. *)
Theorem extract_without_digits (text : str) :
  Forall (fun c => is_digit c = false) text ->
  extract_warranty_and_products text = (None, []).
Proof.
  intros Hno. rewrite Forall_forall in Hno.
  rewrite (surjective_pairing (extract_warranty_and_products text)).
  change (fst (extract_warranty_and_products text)) with (extractWarrantyDate text).
  change (snd (extract_warranty_and_products text)) with (extractLineItems text).
  f_equal.
  - destruct (extractWarrantyDate text) as [d|] eqn:E; [exfalso|reflexivity].
    apply extractWarrantyDate_Some_inv in E
      as (pre & post & -> & (m1 & m2 & d1 & d2 & y1 & y2 & y3 & y4 & -> & Hd)).
    inversion Hd as [|? ? Hm1 _]; subst.
    rewrite Hno in Hm1; [discriminate|].
    apply in_or_app. right. now left.
  - pose proof (extractLineItems_in_order text) as H.
    destruct H as [|gap name ws price rest items _ _ Hp _]; [reflexivity|exfalso].
    destruct Hp as (ds & d1 & d2 & -> & _ & _ & Hd1 & _).
    rewrite Hno in Hd1; [discriminate|].
    rewrite !in_app_iff. simpl. intuition.
Qed.

Lemma extract_without_digits_witness :
  extract_warranty_and_products (py "Warranty: see store. Thank you!") = (None, []).
Proof.
  apply extract_without_digits. repeat constructor.
Defined.

End ExtractorMore.

(** ** From the extractor to the monitor *)

Section ExtractedDates.
Import Re Extractor Calendar Py Strptime.

Lemma is_digit_cases (c : ascii) :
  is_digit c = true -> In c (py "0123456789").
Proof.
  destruct c as [[] [] [] [] [] [] [] []]; try discriminate; intros _; simpl; tauto.
Qed.

(** A two-digit month field followed by the separator is accepted
    exactly for 01 to 12. *)
Lemma month_field (a b : ascii) (fmt : list directive) (s : str) :
  is_digit a = true -> is_digit b = true ->
  match_format (directive_m :: slash :: fmt) (a :: b :: "/"%char :: s)
  = if ((1 <=? int [a; b]) && (int [a; b] <=? 12))%Z
    then option_map (fun tr => ([a; b] :: ["/"%char] :: fst tr, snd tr))
                    (match_format fmt s)
    else None.
Proof.
  intros Ha Hb. apply is_digit_cases in Ha, Hb. simpl in Ha, Hb.
  repeat (destruct Ha as [<- | Ha]; [|]); try contradiction;
    repeat (destruct Hb as [<- | Hb]; [|]); try contradiction;
    cbn; destruct (match_format fmt s) as [[? ?]|]; reflexivity.
Qed.

(** A two-digit day field followed by the separator is accepted
    exactly for 01 to 31. *)
Lemma day_field (a b : ascii) (fmt : list directive) (s : str) :
  is_digit a = true -> is_digit b = true ->
  match_format (directive_d :: slash :: fmt) (a :: b :: "/"%char :: s)
  = if ((1 <=? int [a; b]) && (int [a; b] <=? 31))%Z
    then option_map (fun tr => ([a; b] :: ["/"%char] :: fst tr, snd tr))
                    (match_format fmt s)
    else None.
Proof.
  intros Ha Hb. apply is_digit_cases in Ha, Hb. simpl in Ha, Hb.
  repeat (destruct Ha as [<- | Ha]; [|]); try contradiction;
    repeat (destruct Hb as [<- | Hb]; [|]); try contradiction;
    cbn; destruct (match_format fmt s) as [[? ?]|]; reflexivity.
Qed.

Lemma year_field (y1 y2 y3 y4 : ascii) :
  is_digit y1 = true -> is_digit y2 = true ->
  is_digit y3 = true -> is_digit y4 = true ->
  match_format [directive_Y] [y1; y2; y3; y4] = Some ([[y1; y2; y3; y4]], []).
Proof.
  intros H1 H2 H3 H4. unfold directive_Y. simpl.
  rewrite H1, H2, H3, H4. reflexivity.
Qed.

Lemma days_in_month_le_31 (y m : Z) : (days_in_month y m <= 31)%Z.
Proof.
  unfold days_in_month. destruct ((m =? 2)%Z && is_leap y); [lia|].
  destruct (nth_in_or_default (Z.to_nat (m - 1)) DAYS_IN_MONTH 0%Z) as [H | ->]; [|lia].
  revert H. generalize (nth (Z.to_nat (m - 1)) DAYS_IN_MONTH 0%Z). intros z.
  unfold DAYS_IN_MONTH. simpl. intuition lia.
Qed.

(** [strptime] on a string of the date form. *)
Lemma strptime_date_form (m1 m2 d1 d2 y1 y2 y3 y4 : ascii) :
  Forall (fun c => is_digit c = true) [m1; m2; d1; d2; y1; y2; y3; y4] ->
  forall dt,
    strptime_mdY [m1; m2; "/"%char; d1; d2; "/"%char; y1; y2; y3; y4] = Ok dt
    <-> valid_date (int [y1; y2; y3; y4]) (int [m1; m2]) (int [d1; d2]) = true
        /\ dt = Date (int [y1; y2; y3; y4]) (int [m1; m2]) (int [d1; d2]).
Proof.
  intros H dt.
  repeat match goal with
         | H : Forall _ (_ :: _) |- _ => inversion H; subst; clear H
         end.
  unfold strptime_mdY, format_mdY.
  rewrite month_field by assumption.
  destruct ((1 <=? int [m1; m2]) && (int [m1; m2] <=? 12))%Z eqn:EM.
  - rewrite day_field by assumption.
    destruct ((1 <=? int [d1; d2]) && (int [d1; d2] <=? 31))%Z eqn:ED.
    + rewrite year_field by assumption. cbn [option_map fst snd].
      destruct (valid_date _ _ _); split.
      * intros [= <-]. now split.
      * intros [_ ->]. reflexivity.
      * discriminate.
      * intros [? _]. discriminate.
    + cbn [option_map]. split; [discriminate|]. intros [V _]. exfalso.
      unfold valid_date in V.
      pose proof (days_in_month_le_31 (int [y1; y2; y3; y4]) (int [m1; m2])).
      apply andb_false_iff in ED. lia.
  - split; [discriminate|]. intros [V _]. exfalso.
    unfold valid_date in V. apply andb_false_iff in EM. lia.
Qed.

(** X6: on texts of code points below 256, where the digit class of
    the pattern is 0 to 9, the monitor accepts a date found by the
    extractor exactly when its two-digit month, two-digit day and
    four-digit year are a date of the calendar; the date it builds has
    those numbers. *)
Theorem extracted_date_parses_iff_valid (text d : str) :
  extractWarrantyDate text = Some d ->
  exists m dd y,
    d = m ++ "/"%char :: dd ++ "/"%char :: y
    /\ forall dt,
        strptime_mdY d = Ok dt
        <-> valid_date (int y) (int m) (int dd) = true
            /\ dt = Date (int y) (int m) (int dd).
Proof.
  intros H. apply extractWarrantyDate_Some_inv in H
    as (pre & post & _ & (m1 & m2 & d1 & d2 & y1 & y2 & y3 & y4 & -> & Hd)).
  exists [m1; m2], [d1; d2], [y1; y2; y3; y4]. split; [reflexivity|].
  now apply strptime_date_form.
Qed.

Lemma extracted_date_parses_iff_valid_witness :
  exists m dd y,
    py "02/30/2024" = m ++ "/"%char :: dd ++ "/"%char :: y
    /\ forall dt,
        strptime_mdY (py "02/30/2024") = Ok dt
        <-> valid_date (int y) (int m) (int dd) = true
            /\ dt = Date (int y) (int m) (int dd).
Proof.
  apply (@extracted_date_parses_iff_valid (py "Warranty until 02/30/2024")).
  reflexivity.
Defined.

End ExtractedDates.

(** ** Warranty monitor *)

Section MonitorMore.
Import Calendar Py Strptime Monitor Records.

Lemma findExpiringSoon_spec_filter (today : date) (th1 th2 : Z)
    (ws : list (str * str * str)) :
  (th1 <= th2)%Z ->
  findExpiringSoon_spec today th1 ws
  = filter (fun r => (days_between (date_of r) today <=? th1)%Z)
           (findExpiringSoon_spec today th2 ws).
Proof.
  intros Hle. unfold findExpiringSoon_spec.
  induction ws as [|[[item ds] path] ws IH]; simpl; [reflexivity|].
  rewrite filter_app, <- IH. f_equal.
  destruct (strptime_mdY ds) as [d|]; [|reflexivity].
  destruct (days_between d today <=? th1)%Z eqn:E1.
  - assert (E2 : (days_between d today <=? th2)%Z = true)
      by (apply Z.leb_le; apply Z.leb_le in E1; lia).
    rewrite E2. simpl. unfold date_of. simpl. now rewrite E1.
  - destruct (days_between d today <=? th2)%Z; simpl; [|reflexivity].
    unfold date_of. simpl. now rewrite E1.
Qed.

(** X7: lowering the threshold only removes records: the list returned
    for a threshold is the list returned for any larger threshold,
    restricted to the records within the smaller one. *)
Theorem check_expiring_warranties_threshold_monotone
    (ws : list (str * str * str)) (th1 th2 : Z) (w : world) :
  (th1 <= th2)%Z ->
  exists r1 r2,
    fst (check_expiring_warranties ws th1 w) = Ok r1
    /\ fst (check_expiring_warranties ws th2 w) = Ok r2
    /\ r1 = filter (fun r => (days_between (date_of r) (dt_date (clock w)) <=? th1)%Z) r2.
Proof.
  intros Hle. rewrite !check_expiring_warranties_run. simpl.
  do 2 eexists. repeat split. now apply findExpiringSoon_spec_filter.
Qed.

Lemma check_expiring_warranties_threshold_monotone_witness :
  exists r1 r2,
    fst (check_expiring_warranties
           [(py "a.jpg", py "01/12/2024", py "a.txt");
            (py "b.jpg", py "01/25/2024", py "b.txt")] 7
           (world_at (Date 2024 1 10) 0)) = Ok r1
    /\ fst (check_expiring_warranties
              [(py "a.jpg", py "01/12/2024", py "a.txt");
               (py "b.jpg", py "01/25/2024", py "b.txt")] 30
              (world_at (Date 2024 1 10) 0)) = Ok r2
    /\ r1 = filter (fun r => (days_between (date_of r)
                                (dt_date (clock (world_at (Date 2024 1 10) 0))) <=? 7)%Z) r2.
Proof.
  apply check_expiring_warranties_threshold_monotone. lia.
Defined.

(** X8: when the clock shows the same date at both calls, checking a
    list in two parts gives the two results in a row: their
    concatenation is the result of checking the whole list at once;
    and when the second call starts from the log the first call left,
    the final log is that of the one call on the whole list. *)
Theorem check_expiring_warranties_app
    (ws1 ws2 : list (str * str * str)) (th : Z) (w w2 : world) :
  dt_date (clock w2) = dt_date (clock w) ->
  exists r1 r2,
    fst (check_expiring_warranties ws1 th w) = Ok r1
    /\ fst (check_expiring_warranties ws2 th w2) = Ok r2
    /\ fst (check_expiring_warranties (ws1 ++ ws2) th w) = Ok (r1 ++ r2)
    /\ (log w2 = log (snd (check_expiring_warranties ws1 th w)) ->
        log (snd (check_expiring_warranties ws2 th w2))
        = log (snd (check_expiring_warranties (ws1 ++ ws2) th w))).
Proof.
  intros Hd. rewrite !check_expiring_warranties_run. cbn [fst snd]. rewrite Hd.
  do 2 eexists. repeat split.
  - unfold findExpiringSoon_spec. now rewrite flat_map_app.
  - cbn [log set_log]. intros ->. now rewrite flat_map_app, app_assoc.
Qed.

Lemma check_expiring_warranties_app_witness :
  exists r1 r2,
    fst (check_expiring_warranties [(py "a.jpg", py "13/40/2024", py "a.txt")] 7
           (world_at (Date 2024 1 10) 32400)) = Ok r1
    /\ fst (check_expiring_warranties [(py "b.jpg", py "01/12/2024", py "b.txt")] 7
              (set_log [invalid_date_warning (py "a.jpg") (py "13/40/2024")]
                 (world_at (Date 2024 1 10) 61200))) = Ok r2
    /\ fst (check_expiring_warranties
              ([(py "a.jpg", py "13/40/2024", py "a.txt")]
               ++ [(py "b.jpg", py "01/12/2024", py "b.txt")]) 7
              (world_at (Date 2024 1 10) 32400)) = Ok (r1 ++ r2)
    /\ (log (set_log [invalid_date_warning (py "a.jpg") (py "13/40/2024")]
               (world_at (Date 2024 1 10) 61200))
        = log (snd (check_expiring_warranties
                      [(py "a.jpg", py "13/40/2024", py "a.txt")] 7
                      (world_at (Date 2024 1 10) 32400))) ->
        log (snd (check_expiring_warranties
                    [(py "b.jpg", py "01/12/2024", py "b.txt")] 7
                    (set_log [invalid_date_warning (py "a.jpg") (py "13/40/2024")]
                       (world_at (Date 2024 1 10) 61200))))
        = log (snd (check_expiring_warranties
                      ([(py "a.jpg", py "13/40/2024", py "a.txt")]
                       ++ [(py "b.jpg", py "01/12/2024", py "b.txt")]) 7
                      (world_at (Date 2024 1 10) 32400)))).
Proof.
  apply check_expiring_warranties_app. reflexivity.
Defined.

Lemma strptime_Ok_valid (s : str) (d : date) :
  strptime_mdY s = Ok d -> valid_date (year d) (month d) (day d) = true.
Proof.
  unfold strptime_mdY.
  destruct (match_format format_mdY s) as [[toks rest]|]; [|discriminate].
  repeat (destruct toks as [|? toks]; try discriminate).
  destruct rest; [|discriminate].
  destruct (valid_date _ _ _) eqn:V; [|discriminate].
  intros [= <-]. exact V.
Qed.

(** X9: every record returned carries a date of the calendar (year 1
    to 9999, month 1 to 12, a day of that month) that is at most the
    threshold days after the date of the clock. *)
Theorem check_expiring_warranties_dates_valid
    (ws : list (str * str * str)) (th : Z) (w : world) :
  exists res,
    fst (check_expiring_warranties ws th w) = Ok res
    /\ Forall (fun r =>
                 valid_date (year (date_of r)) (month (date_of r)) (day (date_of r)) = true
                 /\ (days_between (date_of r) (dt_date (clock w)) <= th)%Z)
              res.
Proof.
  rewrite check_expiring_warranties_run. eexists. split; [reflexivity|].
  apply Forall_forall. intros [[item d] path] Hin.
  apply in_findExpiringSoon_spec in Hin as (ds & _ & E & L).
  unfold date_of. simpl. split; auto. now apply strptime_Ok_valid in E.
Qed.

Lemma warnings_of_level (r : str * str * str) :
  Forall (fun e => fst e = WARNING) (warnings_of r).
Proof.
  destruct r as [[item ds] path]. unfold warnings_of.
  destruct (strptime_mdY ds); repeat constructor.
Qed.

(** X10: the monitor leaves the files, the directories and the clock
    as they were and only adds to the log: one entry of level WARNING
    for each record whose date string does not parse, and nothing
    else. *)
Theorem check_expiring_warranties_frame
    (ws : list (str * str * str)) (th : Z) (w : world) :
  exists added,
    log (snd (check_expiring_warranties ws th w)) = log w ++ added
    /\ Forall (fun e => fst e = WARNING) added
    /\ length added = length (filter unparsable ws)
    /\ files (snd (check_expiring_warranties ws th w)) = files w
    /\ dirs (snd (check_expiring_warranties ws th w)) = dirs w
    /\ clock (snd (check_expiring_warranties ws th w)) = clock w.
Proof.
  rewrite check_expiring_warranties_run. cbn [snd log files dirs clock set_log].
  exists (flat_map warnings_of ws). repeat split.
  - apply Forall_flat_map. apply Forall_forall. intros r _. apply warnings_of_level.
  - induction ws as [|[[item ds] path] ws IH]; simpl; [reflexivity|].
    rewrite length_app, IH. unfold unparsable. simpl.
    destruct (strptime_mdY ds); reflexivity.
Qed.

End MonitorMore.

(** ** Output writer *)

Section OutputMore.
Import Py Output Frames.

(** X11: when the path has no NUL character and the file can be
    opened, takes every write and can be closed, the writer returns
    normally, leaves in the file exactly the layout, whatever it held
    before (category line, blank line, extracted text under its
    header, blank line, the warranty line only for a non-empty date,
    products header, one line per product in order), and logs one
    DEBUG entry. *)
Theorem generate_output_overwrites (path category : str) (warranty_date : option str)
    (products : list (str * str)) (text : str) (w : world) :
  has_nul path = false ->
  open_error w path = None ->
  writes_allowed path w ->
  close_error w path = None ->
  exists w',
    generate_output path category warranty_date products text w = (Ok tt, w')
    /\ fs_read path (files w') = Some (layout category warranty_date products text)
    /\ log w' = log w ++ [(DEBUG, py "Generated " ++ path)].
Proof. apply generate_output_layout. Qed.

Lemma generate_output_overwrites_witness :
  exists w',
    generate_output (py "out/txt/grocery/r1.txt") (py "grocery") (Some (py "05/01/2025"))
      [(py "Milk", py "3.50")] (py "grocery Milk 3.50")
      (set_files [(py "out/txt/grocery/r1.txt", py "old")] (world_at (Calendar.Date 2024 1 10) 0))
    = (Ok tt, w')
    /\ fs_read (py "out/txt/grocery/r1.txt") (files w')
       = Some (layout (py "grocery") (Some (py "05/01/2025"))
                 [(py "Milk", py "3.50")] (py "grocery Milk 3.50"))
    /\ log w' = log (set_files [(py "out/txt/grocery/r1.txt", py "old")]
                       (world_at (Calendar.Date 2024 1 10) 0))
                ++ [(DEBUG, py "Generated " ++ py "out/txt/grocery/r1.txt")].
Proof.
  apply generate_output_overwrites; try reflexivity. intros data. reflexivity.
Defined.

(** X12: when the operating system refuses to open the file (the
    exception is an [OSError] and the path has no NUL character), the
    writer still returns normally: the error is caught, logged at
    level ERROR with its message, and no file is created or changed. *)
Theorem generate_output_open_fails (path category : str) (warranty_date : option str)
    (products : list (str * str)) (text : str) (e : exn) (w : world) :
  has_nul path = false ->
  open_error w path = Some e ->
  is_IOError e = true ->
  generate_output path category warranty_date products text w
  = (Ok tt, set_log (log w ++ [(ERROR, py "Error writing to text file: " ++ exn_str e)]) w).
Proof.
  intros Hnul H He. unfold generate_output, try_except, with_open_w, open_w.
  unfold bind at 1. rewrite Hnul, H, He. reflexivity.
Qed.

Lemma generate_output_open_fails_witness :
  generate_output (py "out/txt/other/r1.txt") (py "other") None [] (py "hello")
    (read_only_world (py "Permission denied"))
  = (Ok tt,
     set_log (log (read_only_world (py "Permission denied"))
              ++ [(ERROR, py "Error writing to text file: "
                          ++ exn_str (OSError (py "Permission denied")))])
       (read_only_world (py "Permission denied"))).
Proof. apply generate_output_open_fails; reflexivity. Defined.

(** X19: an exception of [open] that is no [OSError] is not caught: a
    path with a NUL character makes the writer raise [ValueError],
    with nothing logged and no file changed. *)
Theorem generate_output_nul_path (path category : str) (warranty_date : option str)
    (products : list (str * str)) (text : str) (w : world) :
  has_nul path = true ->
  generate_output path category warranty_date products text w
  = (Raise (ValueError (py "embedded null byte")), w).
Proof.
  intros Hnul. unfold generate_output, try_except, with_open_w, open_w.
  unfold bind at 1. rewrite Hnul. reflexivity.
Qed.

Lemma generate_output_nul_path_witness :
  generate_output (py "out/txt/other/r" ++ [zero] ++ py ".txt") (py "other") None []
    (py "hello") (world_at (Calendar.Date 2024 1 10) 0)
  = (Raise (ValueError (py "embedded null byte")), world_at (Calendar.Date 2024 1 10) 0).
Proof. apply generate_output_nul_path. reflexivity. Defined.

(** X20: when the file opens and takes every write but the close fails
    with an [OSError], as on a full disk, the writer returns normally
    and logs one ERROR entry with the message of the error; the DEBUG
    entry of a generated file is not logged. *)
Theorem generate_output_close_fails (path category : str) (warranty_date : option str)
    (products : list (str * str)) (text : str) (e : exn) (w : world) :
  has_nul path = false ->
  open_error w path = None ->
  writes_allowed path w ->
  close_error w path = Some e ->
  is_IOError e = true ->
  exists w',
    generate_output path category warranty_date products text w = (Ok tt, w')
    /\ log w' = log w ++ [(ERROR, py "Error writing to text file: " ++ exn_str e)].
Proof.
  intros Hnul Hopen Hw Hclose He.
  unfold generate_output, try_except, with_open_w, open_w.
  unfold bind at 1. rewrite Hnul, Hopen.
  set (w0 := set_files ((path, []) :: files w) w).
  assert (H0 : fs_read path (files w0) = Some []) by (simpl; now rewrite str_eqb_refl).
  assert (Hw0 : writes_allowed path w0) by exact Hw.
  destruct (write_body_run category warranty_date products text Hw0 H0)
    as (w5 & -> & H5 & L5 & C5).
  unfold file_close. rewrite C5. change (close_error w0) with (close_error w).
  rewrite Hclose, He. unfold logging. eexists. split; [reflexivity|].
  cbn [log set_log]. now rewrite L5.
Qed.

Lemma generate_output_close_fails_witness :
  exists w',
    generate_output (py "out/txt/other/r1.txt") (py "other") None [] (py "hello")
      (full_disk_world (py "No space left on device")) = (Ok tt, w')
    /\ log w' = log (full_disk_world (py "No space left on device"))
                ++ [(ERROR, py "Error writing to text file: "
                            ++ exn_str (OSError (py "No space left on device")))].
Proof.
  apply generate_output_close_fails; try reflexivity. intros data. reflexivity.
Defined.

(** X21: no [OSError] leaves the writer: whatever the machine refuses,
    the writer returns normally or raises an exception that is no
    [OSError]. *)
Theorem generate_output_no_io_error (path category : str) (warranty_date : option str)
    (products : list (str * str)) (text : str) (w : world) :
  match fst (generate_output path category warranty_date products text w) with
  | Ok _ => True
  | Raise e => is_IOError e = false
  end.
Proof.
  unfold generate_output, try_except.
  match goal with
  | |- context [match ?b w with _ => _ end] => destruct (b w) as [[u|e] w1]
  end; cbn [fst]; [exact I|].
  destruct (is_IOError e) eqn:E; [|exact E]. unfold logging. exact I.
Qed.

Lemma str_eqb_eq (a b : str) : str_eqb a b = true <-> a = b.
Proof.
  split; [|intros ->; apply str_eqb_refl].
  unfold str_eqb. rewrite andb_true_iff, startswith_spec, Nat.eqb_eq.
  intros [[r ->] L]. rewrite length_app in L.
  destruct r; [now rewrite app_nil_r | simpl in L; lia].
Qed.

Lemma fs_read_other (path path' c : str) (fs : list (str * str)) :
  path' <> path -> fs_read path' ((path, c) :: fs) = fs_read path' fs.
Proof.
  intros H. simpl. destruct (str_eqb path path') eqn:E; [|reflexivity].
  apply str_eqb_eq in E. congruence.
Qed.

Lemma keeps_ret {A : Type} (path : str) (a : A) : keeps_other_files path (ret a).
Proof. intros w p _. reflexivity. Qed.

Lemma keeps_logging (path : str) (l : level) (msg : str) :
  keeps_other_files path (logging l msg).
Proof. intros w p _. reflexivity. Qed.

Lemma keeps_open_w (path : str) : keeps_other_files path (open_w path).
Proof.
  intros w p Hp. unfold open_w. destruct (has_nul path); [reflexivity|].
  destruct (open_error w path); [reflexivity|].
  cbn [snd files set_files]. now apply fs_read_other.
Qed.

Lemma keeps_file_write (path data : str) : keeps_other_files path (file_write path data).
Proof.
  intros w p Hp. unfold file_write. destruct (write_error w path data); [reflexivity|].
  cbn [snd files set_files]. now apply fs_read_other.
Qed.

Lemma keeps_file_close (path : str) : keeps_other_files path (file_close path).
Proof.
  intros w p Hp. unfold file_close. now destruct (close_error w path).
Qed.

Lemma keeps_bind {A B : Type} (path : str) (c : M A) (k : A -> M B) :
  keeps_other_files path c -> (forall a, keeps_other_files path (k a)) ->
  keeps_other_files path (bind c k).
Proof.
  intros Hc Hk w p Hp. unfold bind. specialize (Hc w p Hp).
  destruct (c w) as [[a|e] w1]; simpl in *; [|exact Hc].
  now rewrite (Hk a w1 p Hp).
Qed.

Lemma keeps_try_except {A : Type} (path : str) (body : M A)
    (catches : exn -> bool) (handler : exn -> M A) :
  keeps_other_files path body -> (forall e, keeps_other_files path (handler e)) ->
  keeps_other_files path (try_except body catches handler).
Proof.
  intros Hb Hh w p Hp. unfold try_except. specialize (Hb w p Hp).
  destruct (body w) as [[a|e] w1]; simpl in *; [exact Hb|].
  destruct (catches e); simpl; [|exact Hb].
  now rewrite (Hh e w1 p Hp).
Qed.

Lemma keeps_with_open_w (path : str) (body : M unit) :
  keeps_other_files path body -> keeps_other_files path (with_open_w path body).
Proof.
  intros Hb w p Hp. unfold with_open_w.
  pose proof (@keeps_open_w path) as Ho. unfold keeps_other_files in Ho, Hb.
  specialize (Ho w p Hp).
  destruct (open_w path w) as [[u|e] w1]; cbn [snd] in *; [|exact Ho].
  specialize (Hb w1 p Hp).
  destruct (body w1) as [[u'|e] w2]; cbn [snd] in *;
    pose proof (@keeps_file_close path) as Hc; unfold keeps_other_files in Hc;
    specialize (Hc w2 p Hp);
    destruct (file_close path w2) as [[u''|e'] w3]; cbn [snd] in *; congruence.
Qed.

Lemma keeps_write_products (path : str) (products : list (str * str)) :
  keeps_other_files path (write_products path products).
Proof.
  induction products as [|[name price] products IH]; cbn [write_products].
  - apply keeps_ret.
  - apply keeps_bind; [apply keeps_file_write | intros _; exact IH].
Qed.

(** X13: the writer touches one file only: whether it succeeds or
    fails, the content of every other path is what it was. *)
Theorem generate_output_keeps_other_files (path category : str)
    (warranty_date : option str) (products : list (str * str)) (text : str)
    (w : world) (path' : str) :
  path' <> path ->
  fs_read path' (files (snd (generate_output path category warranty_date products text w)))
  = fs_read path' (files w).
Proof.
  revert w path'.
  change (keeps_other_files path
            (generate_output path category warranty_date products text)).
  unfold generate_output. apply keeps_try_except.
  - apply keeps_bind; [|intros _; apply keeps_logging].
    apply keeps_with_open_w.
    repeat (apply keeps_bind; [|intros _]);
      try apply keeps_file_write; try apply keeps_write_products.
    destruct (truthy warranty_date); [apply keeps_file_write | apply keeps_ret].
  - intros e. apply keeps_logging.
Qed.

Lemma generate_output_keeps_other_files_witness :
  fs_read (py "out/txt/other/b.txt")
    (files (snd (generate_output (py "out/txt/other/a.txt") (py "other") None []
                   (py "hello")
                   (set_files [(py "out/txt/other/b.txt", py "kept")]
                      (world_at (Calendar.Date 2024 1 10) 0)))))
  = fs_read (py "out/txt/other/b.txt")
      (files (set_files [(py "out/txt/other/b.txt", py "kept")]
                (world_at (Calendar.Date 2024 1 10) 0))).
Proof.
  apply generate_output_keeps_other_files. discriminate.
Defined.

End OutputMore.

(** ** Image binarization *)

Section ImagingMore.
Import Imaging.

Lemma lookup_threshold_values (x : N) :
  nth (N.to_nat x) (lookup_table threshold) 0%N = 0%N
  \/ nth (N.to_nat x) (lookup_table threshold) 0%N = 255%N.
Proof.
  destruct (nth_in_or_default (N.to_nat x) (lookup_table threshold) 0%N) as [H | H];
    [|now left].
  unfold lookup_table in *. apply in_map_iff in H as (i & <- & _).
  unfold threshold. destruct (170 <? N.of_nat i)%N; auto.
Qed.

Lemma lookup_threshold_8bit (x : N) :
  (x < 256)%N -> nth (N.to_nat x) (lookup_table threshold) 0%N = threshold x.
Proof.
  intros H. unfold lookup_table.
  rewrite nth_indep with (d' := threshold (N.of_nat 0))
    by (rewrite length_map, length_seq; lia).
  rewrite (map_nth (fun i => threshold (N.of_nat i))).
  rewrite seq_nth by lia. simpl. now rewrite N2Nat.id.
Qed.

(** X14: binarizing keeps the size of the image, leaves only the
    values 0 and 255, and binarizing again changes nothing. *)
Theorem binarize_gray_idempotent (im : gray_image) :
  width (binarize_gray im) = width im
  /\ height (binarize_gray im) = height im
  /\ length (pixels (binarize_gray im)) = length (pixels im)
  /\ Forall (fun x => x = 0%N \/ x = 255%N) (pixels (binarize_gray im))
  /\ binarize_gray (binarize_gray im) = binarize_gray im.
Proof.
  unfold binarize_gray, Pipeline.binarize_image, point. cbn [width height pixels].
  repeat split.
  - apply length_map.
  - apply Forall_map, Forall_forall. intros x _. apply lookup_threshold_values.
  - f_equal. rewrite map_map. apply map_ext. intros x. cbv beta.
    destruct (lookup_threshold_values x) as [E | E]; rewrite E; reflexivity.
Qed.

(** X15: on an image of 8-bit pixels the result is the threshold pixel
    by pixel: 255 where the pixel is above 170, 0 where it is 170 or
    below. *)
Theorem binarize_gray_threshold (im : gray_image) :
  Forall (fun x => (x < 256)%N) (pixels im) ->
  pixels (binarize_gray im)
  = map (fun x => if (170 <? x)%N then 255%N else 0%N) (pixels im).
Proof.
  intros H. unfold binarize_gray, Pipeline.binarize_image, point. cbn [pixels].
  apply map_ext_in. intros x Hx. rewrite Forall_forall in H.
  now apply lookup_threshold_8bit, H.
Qed.

Lemma binarize_gray_threshold_witness :
  pixels (binarize_gray (GrayImage 2 2 [0; 170; 171; 255]%N))
  = map (fun x => if (170 <? x)%N then 255%N else 0%N) [0; 170; 171; 255]%N.
Proof.
  apply (binarize_gray_threshold (GrayImage 2 2 [0; 170; 171; 255]%N)).
  repeat constructor.
Defined.

End ImagingMore.

(** ** Run coordinator *)

Section CoordinatorMore.
Import Py Output Pipeline Monitor Coordinator.

Variable image : Type.
Variable pil_open : str -> result image.
Variable point_threshold : image -> image.
Variable image_to_string : image -> result str.
Variable stem : str -> str.
Variable repr_products : list (str * str) -> str.
Variable listdir : str -> result (list str).

Lemma endswith_spec (suffix s : str) :
  endswith suffix s = true <-> exists stem', s = stem' ++ suffix.
Proof.
  unfold endswith. rewrite startswith_spec. split.
  - intros [r H]. exists (rev r).
    apply (f_equal (@rev ascii)) in H.
    now rewrite rev_involutive, rev_app_distr, rev_involutive in H.
  - intros [st ->]. exists (rev st). now rewrite rev_app_distr.
Qed.

(** X16: the coordinator picks a name of the directory exactly when it
    ends with [.jpg], [.jpeg] or [.png] in lower case; the test looks
    at the end of the name only and at nothing before it. *)
Theorem is_receipt_image_iff (filename : str) :
  is_receipt_image filename = true
  <-> exists stem',
        filename = stem' ++ py ".jpg"
        \/ filename = stem' ++ py ".jpeg"
        \/ filename = stem' ++ py ".png".
Proof.
  unfold is_receipt_image, image_suffixes. cbn [existsb].
  rewrite orb_false_r, !orb_true_iff, !endswith_spec. split.
  - intros [[st H] | [[st H] | [st H]]]; exists st; auto.
  - intros [st [H | [H | H]]]; [left | right; left | right; right]; now exists st.
Qed.

Lemma process_receipt_run (image_path output_dir : str) (w : world) :
  process_receipt pil_open point_threshold image_to_string stem repr_products
    image_path output_dir w
  = (Ok (None, None, None), set_log (log w ++ name_error_entries image_path) w).
Proof.
  unfold process_receipt, try_except, bind, global.
  rewrite Image_unbound. unfold logging, raise, ret, name_error_entries.
  cbn [is_Exception exn_str log set_log]. now rewrite <- app_assoc.
Qed.

Lemma process_file_run (args_input args_output : str)
    (warranties : list (str * str * str)) (filename : str) (w : world) :
  process_file pil_open point_threshold image_to_string stem repr_products
    args_input args_output warranties filename w
  = (Ok warranties,
     set_log (log w ++ if is_receipt_image filename
                       then name_error_entries (path_join args_input filename)
                       else []) w).
Proof.
  unfold process_file. destruct (is_receipt_image filename).
  - unfold bind. rewrite process_receipt_run. reflexivity.
  - unfold ret. now rewrite app_nil_r, set_log_same.
Qed.

Lemma main_loop_run (args_input args_output : str) (filenames : list str)
    (warranties : list (str * str * str)) (w : world) :
  main_loop pil_open point_threshold image_to_string stem repr_products
    args_input args_output filenames warranties w
  = (Ok warranties,
     set_log (log w ++ flat_map (fun name => name_error_entries (path_join args_input name))
                         (filter is_receipt_image filenames)) w).
Proof.
  revert w; induction filenames as [|name rest IH]; intros w; cbn [main_loop].
  - unfold ret. simpl. now rewrite app_nil_r, set_log_same.
  - unfold bind. rewrite process_file_run, IH. rewrite set_log_twice.
    cbn [log set_log filter]. f_equal. f_equal.
    destruct (is_receipt_image name); cbn [flat_map].
    + now rewrite <- app_assoc.
    + now rewrite app_nil_r.
Qed.

(** X17: when the output directory can be made and the input directory
    can be listed, a run returns normally, writes no file, makes only
    the output directory, and logs, after the line with the two
    directories, two entries for each picked name, in the order of the
    listing: the start of its processing and the error on the unbound
    name [Image].  No receipt is reported as processed and no alert is
    raised. *)
Theorem main_run (args_input args_output : str) (names : list str) (w : world) :
  listdir args_input = Ok names ->
  mkdir_error w args_output = None ->
  exists w',
    main pil_open point_threshold image_to_string stem repr_products listdir
      args_input args_output w = (Ok tt, w')
    /\ files w' = files w
    /\ dirs w' = args_output :: dirs w
    /\ log w'
       = log w
         ++ (DEBUG, py "Input directory: " ++ args_input
                    ++ py ", Output directory: " ++ args_output)
         :: flat_map (fun name => name_error_entries (path_join args_input name))
              (filter is_receipt_image names).
Proof.
  intros Hls Hmk. unfold main, bind, logging, makedirs, lift.
  cbn [mkdir_error set_log]. rewrite Hmk, Hls.
  rewrite main_loop_run. rewrite check_expiring_warranties_run.
  cbn [flat_map alert_loop]. unfold ret.
  eexists. split; [reflexivity|]. cbn [files dirs log set_log set_dirs].
  repeat split. now rewrite app_nil_r, <- app_assoc.
Qed.

(** X18: an error of the listing of the input directory is not caught:
    the run ends with that error, after the first log line and the
    making of the output directory, and nothing else is done. *)
Theorem main_listdir_error (args_input args_output : str) (e : exn) (w : world) :
  listdir args_input = Raise e ->
  mkdir_error w args_output = None ->
  main pil_open point_threshold image_to_string stem repr_products listdir
    args_input args_output w
  = (Raise e,
     set_dirs (args_output :: dirs w)
       (set_log (log w ++ [(DEBUG, py "Input directory: " ++ args_input
                                   ++ py ", Output directory: " ++ args_output)]) w)).
Proof.
  intros Hls Hmk. unfold main, bind, logging, makedirs, lift.
  cbn [mkdir_error set_log]. now rewrite Hmk, Hls.
Qed.

End CoordinatorMore.

Section CoordinatorWitnesses.
Import Py Output Pipeline Monitor Coordinator.

Lemma main_run_witness :
  exists w',
    main (fun _ => Raise (OSError (py "cannot identify image file")))
         (fun im : unit => im) (fun _ => Ok (py "grocery"))
         (fun p => p) (fun _ => py "[]")
         (fun _ => Ok [py "r1.jpg"; py "notes.txt"; py "R2.JPG"; py "r3.png"])
         (py "incoming_receipts") (py "out/txt/")
         (world_at (Calendar.Date 2024 1 10) 0) = (Ok tt, w')
    /\ files w' = files (world_at (Calendar.Date 2024 1 10) 0)
    /\ dirs w' = py "out/txt/" :: dirs (world_at (Calendar.Date 2024 1 10) 0)
    /\ log w'
       = log (world_at (Calendar.Date 2024 1 10) 0)
         ++ (DEBUG, py "Input directory: " ++ py "incoming_receipts"
                    ++ py ", Output directory: " ++ py "out/txt/")
         :: flat_map (fun name => name_error_entries (path_join (py "incoming_receipts") name))
              (filter is_receipt_image
                 [py "r1.jpg"; py "notes.txt"; py "R2.JPG"; py "r3.png"]).
Proof.
  apply main_run; reflexivity.
Defined.

Lemma main_listdir_error_witness :
  main (fun _ => Raise (OSError (py "cannot identify image file")))
       (fun im : unit => im) (fun _ => Ok (py "grocery"))
       (fun p => p) (fun _ => py "[]")
       (fun _ => Raise (OSError (py "No such file or directory")))
       (py "incoming_receipts") (py "out/txt/")
       (world_at (Calendar.Date 2024 1 10) 0)
  = (Raise (OSError (py "No such file or directory")),
     set_dirs (py "out/txt/" :: dirs (world_at (Calendar.Date 2024 1 10) 0))
       (set_log (log (world_at (Calendar.Date 2024 1 10) 0)
                 ++ [(DEBUG, py "Input directory: " ++ py "incoming_receipts"
                             ++ py ", Output directory: " ++ py "out/txt/")])
          (world_at (Calendar.Date 2024 1 10) 0))).
Proof.
  apply main_listdir_error; reflexivity.
Defined.

End CoordinatorWitnesses.
